(** * Surface extraction of [script/inp_to_stl.py]

    A shallow embedding of [convert_to_stl_with_gmsh]: the mesh as gmsh
    reports it (node tags, a flat coordinate buffer, element groups with a
    type name and a flat connectivity buffer), the direct classification
    pass, the dictionary-toggling fallback pass, the node remapping and the
    file effects of the call (temporary [.msh] file, STL output, the
    [try]/[finally] block). *)

From Stdlib Require Import String Ascii.
From stdpp Require Import sorting numbers strings list gmap.

#[local] Set Warnings "-clear-no-such-hyp".

(** ** Exceptions and the error monad *)

(** The exceptions the call can end with.  [ValueError] carries the message
    of the script's own [raise ValueError(...)]; [ReshapeError] is numpy's
    [ValueError] of [reshape] on a buffer of the wrong size, [EmptyMinError]
    the [ValueError] of [min] on an empty sequence; the others stand for
    failures of the calls into meshio and gmsh. *)
Inductive exn :=
  | ReadError
  | TempWriteError
  | GmshInitError
  | GmshOpenError
  | ReshapeError
  | EmptyMinError
  | ValueError (msg : string)
  | StlWriteError.

Inductive result (A : Type) :=
  | Ok (a : A)
  | Raise (e : exn).
Arguments Ok {A} a.
Arguments Raise {A} e.

#[global] Instance result_ret : MRet result := fun A a => Ok a.
#[global] Instance result_bind : MBind result := fun A B f r =>
  match r with
  | Ok a => f a
  | Raise e => Raise e
  end.

#[global] Instance exn_eq_dec : EqDecision exn.
Proof. solve_decision. Defined.

(** ** Strings: Python's [name in [...]] and [needle in name] *)

(** [elem_name in ['a', 'b', ...]] on a list of strings. *)
Definition name_in (name : string) (names : list string) : bool :=
  bool_decide (name ∈ names).

(** [needle in hay] on two strings: substring search. *)
Fixpoint str_contains (needle hay : string) : bool :=
  String.prefix needle hay
  || match hay with
     | EmptyString => false
     | String _ rest => str_contains needle rest
     end.

(** ** numpy's [reshape(-1, k)] on a flat buffer *)

Section Reshape.
Context {A : Type}.

(** Row [i] of the reshaped buffer is [l[i*k : (i+1)*k]]. *)
Fixpoint take_rows (n k : nat) (l : list A) : list (list A) :=
  match n with
  | O => []
  | S n' => take k l :: take_rows n' k (drop k l)
  end.

(** [l.reshape(-1, k)]: the number of rows is [len(l) / k]; numpy raises
    when [len(l)] is not a multiple of [k]. *)
Definition reshape (k : nat) (l : list A) : result (list (list A)) :=
  if decide (length l `mod` k = 0)
  then Ok (take_rows (length l `div` k) k l)
  else Raise ReshapeError.
End Reshape.

(** ** Python's insertion-ordered [dict] *)

Section PyDict.
Context {K V : Type} `{EqDecision K}.

(** A dict as the list of its items in insertion order. *)
Definition dict_keys (d : list (K * V)) : list K := d.*1.
Definition dict_values (d : list (K * V)) : list V := d.*2.

(** [k in d] *)
Definition dict_mem (k : K) (d : list (K * V)) : bool :=
  bool_decide (k ∈ dict_keys d).

(** [del d[k]] *)
Definition dict_del (k : K) (d : list (K * V)) : list (K * V) :=
  filter (fun kv => kv.1 ≠ k) d.

(** [d[k] = v]: an existing key keeps its place, a new key goes last. *)
Definition dict_set (k : K) (v : V) (d : list (K * V)) : list (K * V) :=
  if dict_mem k d
  then (fun kv => if decide (kv.1 = k) then (k, v) else kv) <$> d
  else d ++ [(k, v)].
End PyDict.

(** ** Data model *)

(** Node tags are gmsh's unsigned node identifiers. *)
Definition face := list N.
Definition triangle := list nat.

(** One element type of the gmsh model: the name that
    [getElementProperties(elem_type)[0]] returns, and the two buffers of
    [getElementsByType(elem_type)]. *)
Record elem_group := {
  elem_name : string;
  elem_tags : list N;
  elem_connectivity : list N }.

(** ** Face derivation of the direct classification pass *)

Definition tet_names : list string :=
  ["4-node tetrahedron"; "Tetrahedron"; "tetra"].
Definition hex_names : list string :=
  ["8-node hexahedron"; "Hexahedron"; "Hexahedron 8"; "hexahedron"].
Definition tri_names : list string :=
  ["3-node triangle"; "Triangle"; "triangle"].
Definition quad_names : list string :=
  ["4-node quadrangle"; "Quadrangle"; "quad"].

Definition gmsh_hexahedron_name : string := "Hexahedron 8".
Definition gmsh_triangle_name : string := "Triangle 3".
Definition gmsh_quadrangle_name : string := "Quadrilateral 4".

Definition tet_faces (tet : list N) : list face :=
  [ [tet !!! 0%nat; tet !!! 1%nat; tet !!! 2%nat];
    [tet !!! 0%nat; tet !!! 1%nat; tet !!! 3%nat];
    [tet !!! 0%nat; tet !!! 2%nat; tet !!! 3%nat];
    [tet !!! 1%nat; tet !!! 2%nat; tet !!! 3%nat] ].

Definition hex_faces (hex_elem : list N) : list face :=
  [ (* bottom *)
    [hex_elem !!! 0%nat; hex_elem !!! 1%nat; hex_elem !!! 2%nat];
    [hex_elem !!! 0%nat; hex_elem !!! 2%nat; hex_elem !!! 3%nat];
    (* top *)
    [hex_elem !!! 4%nat; hex_elem !!! 5%nat; hex_elem !!! 6%nat];
    [hex_elem !!! 4%nat; hex_elem !!! 6%nat; hex_elem !!! 7%nat];
    (* sides *)
    [hex_elem !!! 0%nat; hex_elem !!! 1%nat; hex_elem !!! 5%nat];
    [hex_elem !!! 0%nat; hex_elem !!! 5%nat; hex_elem !!! 4%nat];
    [hex_elem !!! 1%nat; hex_elem !!! 2%nat; hex_elem !!! 6%nat];
    [hex_elem !!! 1%nat; hex_elem !!! 6%nat; hex_elem !!! 5%nat];
    [hex_elem !!! 2%nat; hex_elem !!! 3%nat; hex_elem !!! 7%nat];
    [hex_elem !!! 2%nat; hex_elem !!! 7%nat; hex_elem !!! 6%nat];
    [hex_elem !!! 3%nat; hex_elem !!! 0%nat; hex_elem !!! 4%nat];
    [hex_elem !!! 3%nat; hex_elem !!! 4%nat; hex_elem !!! 7%nat] ].

Definition tri_faces (tri : list N) : list face :=
  [ [tri !!! 0%nat; tri !!! 1%nat; tri !!! 2%nat] ].

Definition quad_faces (quad : list N) : list face :=
  [ [quad !!! 0%nat; quad !!! 1%nat; quad !!! 2%nat];
    [quad !!! 0%nat; quad !!! 2%nat; quad !!! 3%nat] ].

Definition unknown_element_type (name : string) : exn :=
  ValueError ("Unknown element type: " +:+ name).

(** The body of the first [for elem_type in element_types] loop: the faces
    one element type adds to [surface_elements]. *)
Definition group_faces (g : elem_group) : result (list face) :=
  if name_in (elem_name g) tet_names then
    connectivity ← reshape 4 (elem_connectivity g);
    Ok (concat (tet_faces <$> connectivity))
  else if name_in (elem_name g) hex_names then
    connectivity ← reshape 8 (elem_connectivity g);
    Ok (concat (hex_faces <$> connectivity))
  else if name_in (elem_name g) tri_names then
    connectivity ← reshape 3 (elem_connectivity g);
    Ok (concat (tri_faces <$> connectivity))
  else if name_in (elem_name g) quad_names then
    connectivity ← reshape 4 (elem_connectivity g);
    Ok (concat (quad_faces <$> connectivity))
  else Raise (unknown_element_type (elem_name g)).

(** The first loop, threading [surface_elements]. *)
Fixpoint direct_pass (element_types : list elem_group)
    (surface_elements : list face) : result (list face) :=
  match element_types with
  | [] => Ok surface_elements
  | g :: rest =>
      faces ← group_faces g;
      direct_pass rest (surface_elements ++ faces)
  end.

(** ** The fallback pass: toggling a dict of sorted faces *)

(** [sorted] on a list of node tags. *)
Fixpoint insert_sorted (x : N) (l : list N) : list N :=
  match l with
  | [] => [x]
  | y :: l' => if (x <=? y)%N then x :: l else y :: insert_sorted x l'
  end.

Definition sorted (l : list N) : list N := foldr insert_sorted [] l.

(** [tuple(sorted([...]))] of the four faces of a tetrahedron. *)
Definition tet_face_keys (tet : list N) : list face :=
  sorted <$> tet_faces tet.

(** [if face in all_faces: del all_faces[face] else: all_faces[face] =
    list(face)] *)
Definition toggle_face (all_faces : list (face * face)) (key : face)
    : list (face * face) :=
  if dict_mem key all_faces
  then dict_del key all_faces
  else dict_set key key all_faces.

Definition toggle_tet (all_faces : list (face * face)) (tet : list N)
    : list (face * face) :=
  foldl toggle_face all_faces (tet_face_keys tet).

Definition fallback_group (all_faces : list (face * face)) (g : elem_group)
    : result (list (face * face)) :=
  if str_contains "4-node tetrahedron" (elem_name g)
     || str_contains "Tetrahedron" (elem_name g)
  then
    connectivity ← reshape 4 (elem_connectivity g);
    Ok (foldl toggle_tet all_faces connectivity)
  else Ok all_faces.

(** The second loop over [element_types], threading [all_faces]. *)
Fixpoint fallback_pass (element_types : list elem_group)
    (all_faces : list (face * face)) : result (list (face * face)) :=
  match element_types with
  | [] => Ok all_faces
  | g :: rest =>
      all_faces' ← fallback_group all_faces g;
      fallback_pass rest all_faces'
  end.

Definition no_surface_error : exn :=
  ValueError "Could not extract any surface elements".

(** Lines 43-135: the faces that reach the remapping, or the exception. *)
Definition extract_surface (element_types : list elem_group)
    : result (list face) :=
  surface_elements ← direct_pass element_types [];
  surface_elements ←
    match surface_elements with
    | [] =>
        all_faces ← fallback_pass element_types [];
        Ok (dict_values all_faces)
    | _ :: _ => Ok surface_elements
    end;
  match surface_elements with
  | [] => Raise no_surface_error
  | _ :: _ => Ok surface_elements
  end.

(** ** Node remapping *)

(** [{tag: i for i, tag in enumerate(node_tags)}], built from index [i]
    on: a tag that occurs twice keeps its last index. *)
Fixpoint node_map_from (i : nat) (node_tags : list N)
    (node_map : gmap N nat) : gmap N nat :=
  match node_tags with
  | [] => node_map
  | tag :: rest => node_map_from (S i) rest (<[tag := i]> node_map)
  end.

Definition build_node_map (node_tags : list N) : gmap N nat :=
  node_map_from 0 node_tags ∅.

(** [[node_map[node_tag] for node_tag in face]]: the mapped face, or the
    first key the lookup fails on. *)
Inductive mapped :=
  | Mapped (t : triangle)
  | KeyError (key : N).

Fixpoint map_face (node_map : gmap N nat) (f : face) : mapped :=
  match f with
  | [] => Mapped []
  | node_tag :: rest =>
      match node_map !! node_tag with
      | None => KeyError node_tag
      | Some i =>
          match map_face node_map rest with
          | Mapped t => Mapped (i :: t)
          | KeyError k => KeyError k
          end
      end
  end.

(** The remapping loop: the triangles appended, and the node of each
    warning printed, both in order. *)
Fixpoint remap_faces (node_map : gmap N nat) (surface_elements : list face)
    : list triangle * list N :=
  match surface_elements with
  | [] => ([], [])
  | f :: rest =>
      let '(triangles, warnings) := remap_faces node_map rest in
      match map_face node_map f with
      | Mapped t => (t :: triangles, warnings)
      | KeyError k => (triangles, k :: warnings)
      end
  end.

(** ** The conversion pipeline (the body of the [try] block) *)

Section Conversion.
(** Coordinates are an opaque payload of the conversion: it only moves
    them from the node buffer to the output mesh. *)
Context {coord : Type}.

(** What gmsh reports once the temporary file is open: [getNodes()] and,
    per element type, [getElementsByType] and [getElementProperties]. *)
Record fe_mesh := {
  node_tags : list N;
  node_coords : list coord;
  element_types : list elem_group }.

(** [meshio.Mesh(coords, [("triangle", triangles)])] *)
Record stl_mesh := {
  points : list (list coord);
  cells : list triangle }.

Definition no_triangles_error : exn :=
  ValueError "No valid triangles to write".

(** Lines 33-160: the mesh handed to the STL writer together with the
    nodes the warnings name, or the exception raised on the way. *)
Definition surface_mesh (m : fe_mesh) : result (stl_mesh * list N) :=
  coords ← reshape 3 (node_coords m);
  surface_elements ← extract_surface (element_types m);
  match node_tags m with
  | [] => Raise EmptyMinError
  | _ :: _ =>
      let node_map := build_node_map (node_tags m) in
      let '(triangles, warnings) := remap_faces node_map surface_elements in
      if bool_decide (0 < length triangles)
      then Ok ({| points := coords; cells := triangles |}, warnings)
      else Raise no_triangles_error
  end.

(** ** Files, the gmsh session and the whole call *)

Inductive file :=
  | InpFile (m : fe_mesh)       (* an Abaqus file meshio can read *)
  | MshFile (m : fe_mesh)       (* a gmsh file *)
  | StlFile (mesh : stl_mesh)   (* an STL file *)
  | PartialFile                 (* left behind by a write that raised *)
  | OtherFile.

Record world := {
  files : gmap string file;
  gmsh_live : bool }.

(** How a write through meshio ends: done, raised before the file was
    created, or raised after it was created. *)
Inductive io_outcome := IoDone | IoFailedClean | IoFailedPartial.

(** The behaviour of the library calls that the script does not control.
    [gmsh_init_ok] says that lines 25-26, [gmsh.initialize()] and
    [gmsh.option.setNumber(...)], both return; when one of them raises,
    [gmsh_session_started] says whether [gmsh.initialize()] had started the
    session by then (it has when the option call raises, and when
    [gmsh.initialize()] itself raises after the library was set up). *)
Record externals := {
  temp_write : io_outcome;     (* meshio.write(temp_msh_file, ...) *)
  gmsh_init_ok : bool;         (* gmsh.initialize(), gmsh.option.setNumber *)
  gmsh_session_started : bool; (* the session exists when they raise *)
  gmsh_open_ok : bool;         (* gmsh.open(temp_msh_file) *)
  stl_write : io_outcome }.    (* meshio.write(output_file, ...) *)

Inductive outcome :=
  | Returned
  | Raised (e : exn).

Definition temp_msh_file : string := "temp_conversion.msh".

Definition set_files (w : world) (fs : gmap string file) : world :=
  {| files := fs; gmsh_live := gmsh_live w |}.

Definition set_gmsh (w : world) (b : bool) : world :=
  {| files := files w; gmsh_live := b |}.

(** [meshio.write(path, ...)] writing content [c]. *)
Definition meshio_write (o : io_outcome) (err : exn) (path : string)
    (c : file) (w : world) : outcome * world :=
  match o with
  | IoDone => (Returned, set_files w (<[path := c]> (files w)))
  | IoFailedClean => (Raised err, w)
  | IoFailedPartial =>
      (Raised err, set_files w (<[path := PartialFile]> (files w)))
  end.

(** The [try] block, lines 29-166. *)
Definition try_block (ext : externals) (output_file : string) (w : world)
    : outcome * world :=
  if gmsh_open_ok ext then
    match files w !! temp_msh_file with
    | Some (MshFile m) =>
        match surface_mesh m with
        | Ok (output_mesh, _) =>
            meshio_write (stl_write ext) StlWriteError output_file
              (StlFile output_mesh) w
        | Raise e => (Raised e, w)
        end
    | _ => (Raised GmshOpenError, w)
    end
  else (Raised GmshOpenError, w).

(** The [finally] block, lines 171-176. *)
Definition finally_block (w : world) : world :=
  let w := set_gmsh w false in
  match files w !! temp_msh_file with
  | Some _ => set_files w (delete temp_msh_file (files w))
  | None => w
  end.

(** [convert_to_stl_with_gmsh(input_file, output_file)] *)
Definition convert_to_stl_with_gmsh (ext : externals)
    (input_file output_file : string) (w : world) : outcome * world :=
  match files w !! input_file with
  | Some (InpFile msh) =>
      match meshio_write (temp_write ext) TempWriteError temp_msh_file
              (MshFile msh) w with
      | (Returned, w) =>
          if gmsh_init_ok ext then
            let w := set_gmsh w true in
            let '(r, w) := try_block ext output_file w in
            (r, finally_block w)
          else
            (Raised GmshInitError,
             set_gmsh w (gmsh_live w || gmsh_session_started ext))
      | (Raised e, w) => (Raised e, w)
      end
  | _ => (Raised ReadError, w)
  end.
End Conversion.

Arguments fe_mesh : clear implicits.
Arguments stl_mesh : clear implicits.
Arguments file : clear implicits.
Arguments world : clear implicits.

(** [if __name__ == "__main__"]: the call on the two fixed file names. *)
Definition main {coord} (ext : externals) (w : world coord)
    : outcome * world coord :=
  convert_to_stl_with_gmsh ext "Job.inp" "Job_surface.stl" w.

(** * Vocabulary of the statements *)

(** The type names the first loop classifies. *)
Definition recognized (name : string) : bool :=
  name_in name tet_names || name_in name hex_names
  || name_in name tri_names || name_in name quad_names.

(** The row width the first loop reshapes the connectivity of a type to. *)
Definition nodes_per_element (name : string) : option nat :=
  if name_in name tet_names then Some 4
  else if name_in name hex_names then Some 8
  else if name_in name tri_names then Some 3
  else if name_in name quad_names then Some 4
  else None.

(** gmsh returns one tag per element and, per element, as many nodes as
    its type has. *)
Definition well_formed_group (g : elem_group) : Prop :=
  match nodes_per_element (elem_name g) with
  | Some k => length (elem_connectivity g) = k * length (elem_tags g)
  | None => True
  end.


Definition hex_group (g : elem_group) : Prop :=
  name_in (elem_name g) hex_names = true
  ∧ length (elem_connectivity g) = 8 * length (elem_tags g).

(** The elements of a group: one row of [k] nodes per element tag. *)
Definition elements_of (k : nat) (g : elem_group) : list (list N) :=
  take_rows (length (elem_tags g)) k (elem_connectivity g).

Definition num_elements (element_types : list elem_group) : nat :=
  sum_list ((fun g => length (elem_tags g)) <$> element_types).

(** Every node an element refers to was harvested. *)
Definition nodes_harvested (node_tags : list N)
    (element_types : list elem_group) : Prop :=
  Forall (fun g => elem_connectivity g ⊆ node_tags) element_types.


(** A face built from a row: three entries, all taken from the row. *)
Definition face_of_row (row : list N) (f : face) : Prop :=
  length f = 3 ∧ f ⊆ row.

(** What [toggle_face] does to the list of keys. *)
Definition toggle_key {A} `{EqDecision A} (l : list A) (k : A) : list A :=
  if bool_decide (k ∈ l) then filter (fun x => x ≠ k) l else l ++ [k].

(** Every value of [all_faces] is [list(face)] of its key. *)
Definition faces_dict (d : list (face * face)) : Prop :=
  Forall (fun kv => kv.2 = kv.1) d.

(** No STL file appears: every STL file of [w'] was already in [w]. *)
Definition no_new_stl {coord} (w w' : world coord) : Prop :=
  ∀ path mesh, files w' !! path = Some (StlFile mesh) →
               files w !! path = Some (StlFile mesh).

(** The world in which the [try] block starts. *)
Definition in_try {coord} (w : world coord) (m : fe_mesh coord)
    : world coord :=
  {| files := <[temp_msh_file := MshFile m]> (files w); gmsh_live := true |}.

(** Neither loop derives a face. *)
Definition no_face_derived (element_types : list elem_group) : Prop :=
  direct_pass element_types [] = Ok []
  ∧ ∃ all_faces, fallback_pass element_types [] = Ok all_faces
                 ∧ dict_values all_faces = [].

(** Faces are derived, but the remapping keeps none of them. *)
Definition no_valid_triangle (node_tags : list N)
    (element_types : list elem_group) : Prop :=
  ∃ faces, extract_surface element_types = Ok faces
           ∧ (remap_faces (build_node_map node_tags) faces).1 = [].

Definition tri_group (g : elem_group) : Prop :=
  name_in (elem_name g) tri_names = true
  ∧ length (elem_connectivity g) = 3 * length (elem_tags g).

Definition quad_group (g : elem_group) : Prop :=
  name_in (elem_name g) quad_names = true
  ∧ length (elem_connectivity g) = 4 * length (elem_tags g).

(** The number of faces the first loop adds per element of a type. *)
Definition faces_per_element (name : string) : nat :=
  if name_in name tet_names then 4
  else if name_in name hex_names then 12
  else if name_in name tri_names then 1
  else if name_in name quad_names then 2
  else 0.

(** The faces a well-formed mesh must yield, type by type. *)
Definition expected_faces (element_types : list elem_group) : nat :=
  sum_list ((fun g => faces_per_element (elem_name g) * length (elem_tags g))
              <$> element_types).

(** How often a key occurs in a sequence of keys. *)
Definition occurrences {A} `{EqDecision A} (k : A) (ks : list A) : nat :=
  length (filter (fun x => x = k) ks).

(** * Sample inputs *)

(** The library calls all succeed. *)
Definition ext_ok : externals :=
  {| temp_write := IoDone; gmsh_init_ok := true;
     gmsh_session_started := true; gmsh_open_ok := true;
     stl_write := IoDone |}.

(** A working directory that holds [Job.inp] only. *)
Definition job_world (m : fe_mesh Z) : world Z :=
  {| files := {[ "Job.inp"%string := InpFile m ]}; gmsh_live := false |}.

(** One tetrahedron on the nodes 1..4. *)
Definition single_tet_mesh : fe_mesh Z :=
  {| node_tags := [1; 2; 3; 4]%N;
     node_coords := [0; 0; 0;  1; 0; 0;  0; 1; 0;  0; 0; 1]%Z;
     element_types :=
       [ {| elem_name := "Tetrahedron"; elem_tags := [1]%N;
            elem_connectivity := [1; 2; 3; 4]%N |} ] |}.

(** Two tetrahedra that share the face on the nodes 2, 3, 4. *)
Definition two_tets_mesh : fe_mesh Z :=
  {| node_tags := [1; 2; 3; 4; 5]%N;
     node_coords :=
       [0; 0; 0;  1; 0; 0;  0; 1; 0;  0; 0; 1;  1; 1; 1]%Z;
     element_types :=
       [ {| elem_name := "Tetrahedron"; elem_tags := [1; 2]%N;
            elem_connectivity := [1; 2; 3; 4;  2; 3; 4; 5]%N |} ] |}.

(** One tetrahedron on the nodes 1..4 and a fifth node that no element
    refers to. *)
Definition spare_node_mesh : fe_mesh Z :=
  {| node_tags := [1; 2; 3; 4; 9]%N;
     node_coords :=
       [0; 0; 0;  1; 0; 0;  0; 1; 0;  0; 0; 1;  5; 5; 5]%Z;
     element_types :=
       [ {| elem_name := "Tetrahedron"; elem_tags := [1]%N;
            elem_connectivity := [1; 2; 3; 4]%N |} ] |}.

(** Two triangles; the second refers to node 7, which was not harvested. *)
Definition dangling_mesh : fe_mesh Z :=
  {| node_tags := [1; 2; 3]%N;
     node_coords := [0; 0; 0;  1; 0; 0;  0; 1; 0]%Z;
     element_types :=
       [ {| elem_name := "Triangle"; elem_tags := [1; 2]%N;
            elem_connectivity := [1; 2; 3;  1; 2; 7]%N |} ] |}.

(** One triangle, none of whose nodes was harvested. *)
Definition all_dangling_mesh : fe_mesh Z :=
  {| node_tags := [1; 2; 3]%N;
     node_coords := [0; 0; 0;  1; 0; 0;  0; 1; 0]%Z;
     element_types :=
       [ {| elem_name := "Triangle"; elem_tags := [1]%N;
            elem_connectivity := [7; 8; 9]%N |} ] |}.

(** Nodes without any element. *)
Definition no_element_mesh : fe_mesh Z :=
  {| node_tags := [1; 2; 3]%N;
     node_coords := [0; 0; 0;  1; 0; 0;  0; 1; 0]%Z;
     element_types := [] |}.

(** A tetrahedron next to a line element, a type the script does not
    classify. *)
Definition line_mesh : fe_mesh Z :=
  {| node_tags := [1; 2; 3; 4]%N;
     node_coords := [0; 0; 0;  1; 0; 0;  0; 1; 0;  0; 0; 1]%Z;
     element_types :=
       [ {| elem_name := "Tetrahedron"; elem_tags := [1]%N;
            elem_connectivity := [1; 2; 3; 4]%N |};
         {| elem_name := "Line 2"; elem_tags := [2]%N;
            elem_connectivity := [1; 2]%N |} ] |}.

(** [gmsh.initialize()] raises once the session is started (as it does off
    the main thread); the other library calls succeed. *)
Definition ext_init_fails : externals :=
  {| temp_write := IoDone; gmsh_init_ok := false;
     gmsh_session_started := true; gmsh_open_ok := true;
     stl_write := IoDone |}.

(** The unit cube as one hexahedron. *)
Definition unit_cube_mesh : fe_mesh Z :=
  {| node_tags := [1; 2; 3; 4; 5; 6; 7; 8]%N;
     node_coords :=
       [0; 0; 0;  1; 0; 0;  1; 1; 0;  0; 1; 0;
        0; 0; 1;  1; 0; 1;  1; 1; 1;  0; 1; 1]%Z;
     element_types :=
       [ {| elem_name := "Hexahedron 8"; elem_tags := [1]%N;
            elem_connectivity := [1; 2; 3; 4; 5; 6; 7; 8]%N |} ] |}.


(** Two triangles and one quadrilateral on five harvested nodes. *)
Definition shell_mesh : fe_mesh Z :=
  {| node_tags := [1; 2; 3; 4; 5]%N;
     node_coords :=
       [0; 0; 0;  1; 0; 0;  1; 1; 0;  0; 1; 0;  2; 0; 0]%Z;
     element_types :=
       [ {| elem_name := "Triangle"; elem_tags := [1; 2]%N;
            elem_connectivity := [1; 2; 3;  1; 3; 4]%N |};
         {| elem_name := "quad"; elem_tags := [3]%N;
            elem_connectivity := [2; 5; 3; 4]%N |} ] |}.

(** Coordinates that are not a multiple of three. *)
Definition ragged_mesh : fe_mesh Z :=
  {| node_tags := [1; 2; 3]%N;
     node_coords := [0; 0; 0;  1; 0; 0;  0; 1]%Z;
     element_types :=
       [ {| elem_name := "Triangle"; elem_tags := [1]%N;
            elem_connectivity := [1; 2; 3]%N |} ] |}.

(** The STL writer raises before it creates the file. *)
Definition ext_stl_fails : externals :=
  {| temp_write := IoDone; gmsh_init_ok := true;
     gmsh_session_started := true; gmsh_open_ok := true;
     stl_write := IoFailedClean |}.



(** Two triangles, and one quadrilateral, each under the name gmsh
    reports. *)
Definition gmsh_triangles : list elem_group :=
  [ {| elem_name := gmsh_triangle_name; elem_tags := [1; 2]%N;
       elem_connectivity := [1; 2; 3;  1; 3; 4]%N |} ].

Definition gmsh_quadrangles : list elem_group :=
  [ {| elem_name := gmsh_quadrangle_name; elem_tags := [3]%N;
       elem_connectivity := [2; 5; 3; 4]%N |} ].

(** * Properties *)

(** ** The error monad *)

Lemma bind_Ok_inv {A B} (r : result A) (f : A → result B) (b : B) :
  r ≫= f = Ok b → ∃ a, r = Ok a ∧ f a = Ok b.
Proof. destruct r as [a|e]; [eauto | discriminate]. Qed.

(** ** [reshape] *)

Section ReshapeFacts.
Context {A : Type}.
Implicit Types l : list A.

Lemma take_rows_length n k l : length (take_rows n k l) = n.
Proof. revert l. induction n; intros; simpl; auto. Qed.

Lemma take_rows_rows n k l :
  length l = n * k → Forall (fun row => length row = k) (take_rows n k l).
Proof.
  revert l. induction n as [|n IH]; intros l Hl; simpl; constructor.
  - rewrite length_take. simpl in Hl. lia.
  - apply IH. rewrite length_drop. simpl in Hl. lia.
Qed.

Lemma take_rows_concat n k l :
  length l = n * k → concat (take_rows n k l) = l.
Proof.
  revert l. induction n as [|n IH]; intros l Hl; simpl.
  - by destruct l.
  - rewrite IH, ?take_drop; [done|]. rewrite length_drop. simpl in Hl. lia.
Qed.

Lemma take_rows_app n k row l :
  length row = k → take_rows (S n) k (row ++ l) = row :: take_rows n k l.
Proof.
  intros <-. simpl. by rewrite take_app_length, drop_app_length.
Qed.

(** A buffer of [n] rows of [k] entries reshapes to these rows. *)
Lemma reshape_rows n k l :
  0 < k → length l = k * n → reshape k l = Ok (take_rows n k l).
Proof.
  intros Hk Hl. unfold reshape. rewrite Hl.
  rewrite (Nat.mul_comm k n), Nat.Div0.mod_mul, Nat.div_mul by lia.
  by rewrite decide_True.
Qed.

Lemma reshape_Ok_inv k l rows :
  0 < k → reshape k l = Ok rows →
  length l = k * length rows
  ∧ Forall (fun row => length row = k) rows
  ∧ concat rows = l.
Proof.
  intros Hk. unfold reshape. case_decide as Hmod; [|discriminate].
  intros [= <-].
  assert (Hl : length l = length l `div` k * k).
  { apply Nat.Div0.div_exact in Hmod. lia. }
  rewrite take_rows_length. split; [lia|].
  split; [by apply take_rows_rows | by apply take_rows_concat].
Qed.

Lemma reshape_nil k : reshape k (@nil A) = Ok [].
Proof. unfold reshape. simpl. rewrite Nat.Div0.mod_0_l, Nat.Div0.div_0_l. by rewrite decide_True. Qed.
End ReshapeFacts.

(** ** Lists *)

Lemma elem_of_concat {A} (x : A) (ls : list (list A)) :
  x ∈ concat ls ↔ ∃ l, l ∈ ls ∧ x ∈ l.
Proof.
  rewrite list_elem_of_In, in_concat.
  split; intros (l & H1 & H2); exists l; by rewrite ?list_elem_of_In in *.
Qed.

(** ** The direct classification pass *)

Ltac destruct_row row :=
  repeat (destruct row as [|? row]; simpl in *; try lia).

Ltac solve_faces_of_row :=
  cbn; repeat first [apply Forall_nil_2 | apply Forall_cons_2];
  (split; [done | set_solver]).

Lemma tet_faces_rows tet :
  length tet = 4 → Forall (face_of_row tet) (tet_faces tet).
Proof.
  intros H. destruct_row tet. solve_faces_of_row.
Qed.

Lemma hex_faces_rows hex_elem :
  length hex_elem = 8 → Forall (face_of_row hex_elem) (hex_faces hex_elem).
Proof.
  intros H. destruct_row hex_elem. solve_faces_of_row.
Qed.

Lemma tri_faces_rows tri :
  length tri = 3 → Forall (face_of_row tri) (tri_faces tri).
Proof.
  intros H. destruct_row tri. solve_faces_of_row.
Qed.

Lemma quad_faces_rows quad :
  length quad = 4 → Forall (face_of_row quad) (quad_faces quad).
Proof.
  intros H. destruct_row quad. solve_faces_of_row.
Qed.

(** Whatever its type, a group that is classified adds the faces of the
    rows of its reshaped connectivity, at least one face per row. *)
Lemma group_faces_Ok_inv g faces :
  group_faces g = Ok faces →
  ∃ (k : nat) (per_row : list N → list face) (rows : list (list N)),
    0 < k
    ∧ reshape k (elem_connectivity g) = Ok rows
    ∧ faces = concat (per_row <$> rows)
    ∧ (∀ row, length row = k → Forall (face_of_row row) (per_row row))
    ∧ (∀ row, per_row row ≠ []).
Proof.
  unfold group_faces. intros H.
  repeat case_match; try discriminate;
    apply bind_Ok_inv in H as (rows & Hrows & [= <-]).
  - exists 4, tet_faces, rows. eauto 10 using tet_faces_rows with lia.
  - exists 8, hex_faces, rows. eauto 10 using hex_faces_rows with lia.
  - exists 3, tri_faces, rows. eauto 10 using tri_faces_rows with lia.
  - exists 4, quad_faces, rows. eauto 10 using quad_faces_rows with lia.
Qed.

(** A group that adds no face has no element. *)
Lemma group_faces_nil g :
  group_faces g = Ok [] → elem_connectivity g = [].
Proof.
  intros (k & per_row & rows & Hk & Hrows & Hnil & _ & Hne)%group_faces_Ok_inv.
  apply reshape_Ok_inv in Hrows as (_ & _ & <-); [|done].
  destruct rows as [|row rows]; [done|].
  simpl in Hnil. symmetry in Hnil. apply app_eq_nil in Hnil as [Hnil _].
  by apply Hne in Hnil.
Qed.

Lemma group_faces_shape g faces :
  group_faces g = Ok faces →
  Forall (face_of_row (elem_connectivity g)) faces.
Proof.
  intros (k & per_row & rows & Hk & Hrows & -> & Hper & _)%group_faces_Ok_inv.
  apply reshape_Ok_inv in Hrows as (_ & Hlen & <-); [|done].
  apply Forall_concat, Forall_fmap.
  apply Forall_forall. intros row Hrow. simpl.
  rewrite Forall_forall in Hlen.
  eapply Forall_impl; [apply Hper, Hlen, Hrow|].
  intros f [Hf Hsub]. split; [done|].
  intros x Hx. apply elem_of_concat. eauto.
Qed.

(** The accumulator of the first loop only grows at its end. *)
Lemma direct_pass_acc element_types acc :
  direct_pass element_types acc
  = faces ← direct_pass element_types []; Ok (acc ++ faces).
Proof.
  revert acc. induction element_types as [|g rest IH]; intros acc; simpl.
  - by rewrite app_nil_r.
  - destruct (group_faces g) as [faces|e]; simpl; [|done].
    rewrite (IH (acc ++ faces)), (IH faces).
    destruct (direct_pass rest []) as [faces'|e]; simpl; [|done].
    by rewrite app_assoc.
Qed.

Lemma direct_pass_cons g rest :
  direct_pass (g :: rest) []
  = faces ← group_faces g; faces' ← direct_pass rest []; Ok (faces ++ faces').
Proof.
  simpl. destruct (group_faces g) as [faces|e]; simpl; [|done].
  apply direct_pass_acc.
Qed.

(** Every face of the direct pass has three nodes, all from the
    connectivity of one element group. *)
Lemma direct_pass_shape element_types faces :
  direct_pass element_types [] = Ok faces →
  Forall (fun f => ∃ g, g ∈ element_types
                        ∧ face_of_row (elem_connectivity g) f) faces.
Proof.
  revert faces. induction element_types as [|g rest IH]; intros faces.
  - intros [= <-]. constructor.
  - rewrite direct_pass_cons.
    intros (fs & Hg & (fs' & Hrest & [= <-])%bind_Ok_inv)%bind_Ok_inv.
    apply Forall_app. split.
    + eapply Forall_impl; [by apply group_faces_shape|].
      intros f Hf. exists g. split; [left|done].
    + eapply Forall_impl; [by apply IH|].
      intros f (g' & Hin & Hf). exists g'. split; [by right|done].
Qed.

(** When every group is classified the same way, the direct pass is the
    concatenation of the faces of all rows. *)
Lemma direct_pass_uniform (per_row : list N → list face)
    (rows_of : elem_group → list (list N)) element_types :
  Forall (fun g => group_faces g = Ok (concat (per_row <$> rows_of g)))
    element_types →
  direct_pass element_types []
  = Ok (concat (per_row <$> (element_types ≫= rows_of))).
Proof.
  induction 1 as [|g rest Hg _ IH].
  - done.
  - rewrite direct_pass_cons, Hg. simpl. rewrite IH. simpl.
    by rewrite fmap_app, concat_app.
Qed.

Lemma length_concat_const {A B} (f : A → list B) (n : nat) (l : list A) :
  (∀ a, length (f a) = n) → length (concat (f <$> l)) = n * length l.
Proof.
  intros Hf. induction l as [|a l IH]; [simpl; lia|].
  rewrite fmap_cons. cbn [concat]. rewrite length_app, Hf, IH. simpl. lia.
Qed.

(** ** The fallback pass is reached only by a mesh without elements *)

Lemma direct_pass_nil_inv g rest :
  direct_pass (g :: rest) [] = Ok [] →
  group_faces g = Ok [] ∧ direct_pass rest [] = Ok [].
Proof.
  rewrite direct_pass_cons.
  intros (fs & Hg & (fs' & Hrest & [= Hnil])%bind_Ok_inv)%bind_Ok_inv.
  apply app_eq_nil in Hnil as [-> ->]. done.
Qed.

(** When the first loop has added no face, the second loop finds no
    tetrahedron to toggle and leaves [all_faces] as it is. *)
Lemma fallback_pass_unproductive element_types all_faces :
  direct_pass element_types [] = Ok [] →
  fallback_pass element_types all_faces = Ok all_faces.
Proof.
  induction element_types as [|g rest IH]; [done|].
  intros [Hg Hrest]%direct_pass_nil_inv. simpl.
  unfold fallback_group. rewrite (group_faces_nil g Hg), reshape_nil.
  destruct (_ || _); simpl; auto.
Qed.

(** So the faces that reach the remapping are those of the first loop. *)
Lemma extract_surface_direct element_types :
  extract_surface element_types
  = match direct_pass element_types [] with
    | Ok [] => Raise no_surface_error
    | Ok (f :: faces) => Ok (f :: faces)
    | Raise e => Raise e
    end.
Proof.
  unfold extract_surface.
  destruct (direct_pass element_types []) as [[|f faces]|e] eqn:Hd; simpl;
    [|done..].
  by rewrite (fallback_pass_unproductive _ _ Hd).
Qed.

Lemma extract_surface_Ok_inv element_types faces :
  extract_surface element_types = Ok faces →
  direct_pass element_types [] = Ok faces ∧ faces ≠ [].
Proof.
  rewrite extract_surface_direct.
  destruct (direct_pass element_types []) as [[|f fs]|e]; try discriminate.
  by intros [= <-].
Qed.

(** ** Toggling keys *)

Section Toggle.
Context {A : Type} `{EqDecision A}.
Implicit Types l ks : list A.




End Toggle.

(** ** The dict of faces *)

Lemma dict_mem_spec {K V} `{EqDecision K} (k : K) (d : list (K * V)) :
  dict_mem k d = bool_decide (k ∈ dict_keys d).
Proof. done. Qed.

Lemma dict_keys_del {K V} `{EqDecision K} (k : K) (d : list (K * V)) :
  dict_keys (dict_del k d) = filter (fun x => x ≠ k) (dict_keys d).
Proof.
  unfold dict_keys, dict_del. induction d as [|[k' v] d IH]; [done|].
  rewrite fmap_cons, !filter_cons. simpl. case_decide.
  - by rewrite fmap_cons, IH.
  - done.
Qed.

Lemma toggle_face_keys d k :
  dict_keys (toggle_face d k) = toggle_key (dict_keys d) k.
Proof.
  unfold toggle_face, toggle_key, dict_set. rewrite dict_mem_spec.
  case_bool_decide.
  - apply dict_keys_del.
  - unfold dict_keys. by rewrite fmap_app.
Qed.

Lemma toggle_face_faces_dict d k :
  faces_dict d → faces_dict (toggle_face d k).
Proof.
  unfold faces_dict, toggle_face, dict_set, dict_del. intros Hd.
  destruct (dict_mem k d).
  - rewrite Forall_forall in Hd. apply Forall_forall.
    intros kv [_ Hkv]%list_elem_of_filter. by apply Hd.
  - apply Forall_app. split; [done|]. by constructor.
Qed.

Lemma toggle_faces_keys d ks :
  dict_keys (foldl toggle_face d ks) = foldl toggle_key (dict_keys d) ks.
Proof.
  revert d. induction ks as [|k ks IH]; intros d; simpl; [done|].
  by rewrite IH, toggle_face_keys.
Qed.

Lemma toggle_faces_faces_dict d ks :
  faces_dict d → faces_dict (foldl toggle_face d ks).
Proof.
  revert d. induction ks as [|k ks IH]; intros d Hd; simpl; [done|].
  by apply IH, toggle_face_faces_dict.
Qed.

Lemma faces_dict_values d : faces_dict d → dict_values d = dict_keys d.
Proof.
  unfold faces_dict, dict_values, dict_keys.
  induction 1 as [|[k v] d Hkv _ IH]; [done|].
  rewrite !fmap_cons. simpl in *. by f_equal.
Qed.

(** ** [sorted] and the keys of faces *)

Arguments sorted : simpl never.

Lemma insert_sorted_perm x l : insert_sorted x l ≡ₚ x :: l.
Proof.
  induction l as [|y l IH]; simpl; [done|].
  destruct (x <=? y)%N; [done|]. rewrite IH. apply perm_swap.
Qed.

Lemma sorted_perm l : sorted l ≡ₚ l.
Proof.
  induction l as [|x l IH]; [done|].
  unfold sorted in *. simpl. by rewrite insert_sorted_perm, IH.
Qed.

Lemma insert_sorted_StronglySorted x l :
  StronglySorted N.le l → StronglySorted N.le (insert_sorted x l).
Proof.
  induction 1 as [|y l Hl IH Hy]; simpl.
  - by repeat constructor.
  - destruct (N.leb_spec x y) as [Hxy|Hxy].
    + constructor; [by constructor|]. constructor; [done|].
      eapply Forall_impl; [exact Hy|]. intros z Hz. simpl in *. lia.
    + constructor; [done|]. rewrite insert_sorted_perm.
      constructor; [lia|done].
Qed.

Lemma sorted_StronglySorted l : StronglySorted N.le (sorted l).
Proof.
  induction l as [|x l IH]; [constructor|].
  unfold sorted in *. simpl. by apply insert_sorted_StronglySorted.
Qed.

(** Two faces have the same key exactly when they have the same nodes. *)
Lemma sorted_eq_iff l1 l2 : sorted l1 = sorted l2 ↔ l1 ≡ₚ l2.
Proof.
  split.
  - intros H. by rewrite <- (sorted_perm l1), H, sorted_perm.
  - intros H. apply (StronglySorted_unique N.le);
      [apply sorted_StronglySorted..|].
    by rewrite !sorted_perm.
Qed.

Lemma NoDup_3 {A} (x y z : A) : x ≠ y → x ≠ z → y ≠ z → NoDup [x; y; z].
Proof. intros. repeat constructor; set_solver. Qed.





(** ** The node map *)

Lemma node_map_from_lookup i0 node_tags node_map tag i :
  node_map_from i0 node_tags node_map !! tag = Some i →
  node_map !! tag = Some i ∨ (i0 ≤ i ∧ node_tags !! (i - i0) = Some tag).
Proof.
  revert i0 node_map.
  induction node_tags as [|t rest IH]; intros i0 node_map; simpl; [auto|].
  intros [Hins|[Hle Hrest]]%IH.
  - destruct (decide (t = tag)) as [->|Hne].
    + rewrite lookup_insert_eq in Hins. injection Hins as <-.
      right. by rewrite Nat.sub_diag.
    + rewrite lookup_insert_ne in Hins by done. by left.
  - right. split; [lia|].
    replace (i - i0) with (S (i - S i0)) by lia. done.
Qed.

(** An index of the node map is the position of its tag in [node_tags]. *)
Lemma build_node_map_lookup node_tags tag i :
  build_node_map node_tags !! tag = Some i →
  node_tags !! i = Some tag ∧ i < length node_tags.
Proof.
  intros [Hempty|[_ Hi]]%node_map_from_lookup.
  - by rewrite lookup_empty in Hempty.
  - rewrite Nat.sub_0_r in Hi. split; [done|]. by eapply lookup_lt_Some.
Qed.

Lemma node_map_from_is_Some i0 node_tags node_map tag :
  tag ∈ node_tags ∨ is_Some (node_map !! tag) →
  is_Some (node_map_from i0 node_tags node_map !! tag).
Proof.
  revert i0 node_map.
  induction node_tags as [|t rest IH]; intros i0 node_map; simpl.
  - intros [[]%elem_of_nil|?]. done.
  - intros H. apply IH. rewrite elem_of_cons in H.
    destruct (decide (t = tag)) as [->|Hne].
    + right. rewrite lookup_insert_eq. eauto.
    + rewrite lookup_insert_ne by done. naive_solver.
Qed.

(** The keys of the node map are the harvested node tags. *)
Lemma build_node_map_is_Some node_tags tag :
  is_Some (build_node_map node_tags !! tag) ↔ tag ∈ node_tags.
Proof.
  split.
  - intros [i [Hi _]%build_node_map_lookup]. by eapply list_elem_of_lookup_2.
  - intros H. apply node_map_from_is_Some. by left.
Qed.

(** With distinct tags the index is the position in read order. *)
Lemma build_node_map_position node_tags tag i :
  NoDup node_tags → node_tags !! i = Some tag →
  build_node_map node_tags !! tag = Some i.
Proof.
  intros Hnd Hi.
  destruct (proj2 (build_node_map_is_Some node_tags tag)) as [j Hj].
  { by eapply list_elem_of_lookup_2. }
  rewrite Hj. f_equal.
  apply build_node_map_lookup in Hj as [Hj _].
  by eapply NoDup_lookup.
Qed.

(** ** Remapping faces *)

Lemma map_face_Mapped node_map f t :
  map_face node_map f = Mapped t →
  Forall2 (fun node_tag i => node_map !! node_tag = Some i) f t.
Proof.
  revert t. induction f as [|node_tag rest IH]; intros t; simpl.
  - intros [= <-]. constructor.
  - destruct (node_map !! node_tag) as [i|] eqn:Hi; [|discriminate].
    destruct (map_face node_map rest) as [t'|k]; [|discriminate].
    intros [= <-]. constructor; auto.
Qed.

Lemma map_face_KeyError node_map f k :
  map_face node_map f = KeyError k → k ∈ f ∧ node_map !! k = None.
Proof.
  induction f as [|node_tag rest IH]; simpl; [discriminate|].
  destruct (node_map !! node_tag) as [i|] eqn:Hi.
  - destruct (map_face node_map rest) as [t'|k']; [discriminate|].
    intros [= ->]. destruct IH as [? ?]; [done|]. split; [by right|done].
  - intros [= ->]. split; [by left|done].
Qed.

Lemma map_face_valid node_map f :
  Forall (fun node_tag => is_Some (node_map !! node_tag)) f →
  ∃ t, map_face node_map f = Mapped t.
Proof.
  induction 1 as [|node_tag rest [i Hi] _ [t Ht]]; simpl; [eauto|].
  rewrite Hi, Ht. eauto.
Qed.

(** A face is dropped exactly when one of its nodes is not in the map. *)
Lemma map_face_dangling node_map f :
  (∃ k, map_face node_map f = KeyError k)
  ↔ ∃ node_tag, node_tag ∈ f ∧ node_map !! node_tag = None.
Proof.
  split.
  - intros [k Hk%map_face_KeyError]. eauto.
  - intros (node_tag & Hin & Hnone).
    destruct (map_face node_map f) as [t|k] eqn:Hm; [|eauto].
    apply map_face_Mapped in Hm.
    apply list_elem_of_lookup in Hin as [j Hj].
    destruct (Forall2_lookup_l _ _ _ _ _ Hm Hj) as (i & _ & Hi).
    congruence.
Qed.

Lemma remap_faces_app node_map faces1 faces2 :
  remap_faces node_map (faces1 ++ faces2)
  = ((remap_faces node_map faces1).1 ++ (remap_faces node_map faces2).1,
     (remap_faces node_map faces1).2 ++ (remap_faces node_map faces2).2).
Proof.
  induction faces1 as [|f faces1 IH]; simpl.
  - by destruct (remap_faces node_map faces2).
  - rewrite IH.
    destruct (remap_faces node_map faces1) as [t1 w1].
    destruct (remap_faces node_map faces2) as [t2 w2].
    by destruct (map_face node_map f).
Qed.

(** Every triangle is the image of one of the faces. *)
Lemma remap_faces_elem node_map faces t :
  t ∈ (remap_faces node_map faces).1 →
  ∃ f, f ∈ faces ∧ map_face node_map f = Mapped t.
Proof.
  induction faces as [|f faces IH]; simpl.
  - intros []%elem_of_nil.
  - destruct (remap_faces node_map faces) as [ts ws].
    destruct (map_face node_map f) as [t'|k] eqn:Hf; simpl in *.
    + intros [->|Hin]%elem_of_cons.
      * exists f. split; [by left|done].
      * destruct (IH Hin) as (f' & ? & ?). exists f'. split; [by right|done].
    + intros Hin. destruct (IH Hin) as (f' & ? & ?).
      exists f'. split; [by right|done].
Qed.

(** When every node of every face is in the map, no face is dropped. *)
Lemma remap_faces_valid node_map faces :
  Forall (Forall (fun node_tag => is_Some (node_map !! node_tag))) faces →
  length (remap_faces node_map faces).1 = length faces
  ∧ (remap_faces node_map faces).2 = [].
Proof.
  induction 1 as [|f faces [t Ht]%map_face_valid _ [IH1 IH2]]; simpl; [done|].
  destruct (remap_faces node_map faces) as [ts ws]. rewrite Ht.
  simpl in *. by rewrite IH1, IH2.
Qed.

(** ** The call: files and exits *)

Section Call.
Context {coord : Type}.
Implicit Types (m : fe_mesh coord) (w : world coord) (ext : externals).

Lemma finally_block_eq w :
  finally_block w
  = {| files := delete temp_msh_file (files w); gmsh_live := false |}.
Proof.
  unfold finally_block, set_files, set_gmsh. simpl.
  destruct (files w !! temp_msh_file) eqn:Htemp; simpl; [done|].
  by rewrite delete_id.
Qed.

(** The [finally] block leaves no temporary file. *)
Lemma finally_block_no_temp w :
  files (finally_block w) !! temp_msh_file = None.
Proof. rewrite finally_block_eq. simpl. apply lookup_delete_eq. Qed.

(** The call, once the input is read, the temporary file written and the
    gmsh session open: the pipeline, the STL write, the [finally] block. *)
Lemma convert_in_try ext input_file output_file w m :
  files w !! input_file = Some (InpFile m) →
  temp_write ext = IoDone → gmsh_init_ok ext = true →
  gmsh_open_ok ext = true →
  convert_to_stl_with_gmsh ext input_file output_file w
  = match surface_mesh m with
    | Ok (output_mesh, _) =>
        let '(r, w') := meshio_write (stl_write ext) StlWriteError
                          output_file (StlFile output_mesh) (in_try w m) in
        (r, finally_block w')
    | Raise e => (Raised e, finally_block (in_try w m))
    end.
Proof.
  intros Hin Htemp Hinit Hopen. unfold convert_to_stl_with_gmsh, try_block.
  rewrite Hin, Htemp, Hinit, Hopen. simpl. rewrite lookup_insert_eq.
  by destruct (surface_mesh m) as [[output_mesh warnings]|e].
Qed.

(** A call that returns has read a mesh, derived the output mesh from it,
    written it to the output file and then removed the temporary file. *)
Lemma convert_Returned_inv ext input_file output_file w w' :
  convert_to_stl_with_gmsh ext input_file output_file w = (Returned, w') →
  ∃ m output_mesh warnings,
    files w !! input_file = Some (InpFile m)
    ∧ surface_mesh m = Ok (output_mesh, warnings)
    ∧ w' = {| files := delete temp_msh_file
                         (<[output_file := StlFile output_mesh]>
                            (<[temp_msh_file := MshFile m]> (files w)));
              gmsh_live := false |}.
Proof.
  unfold convert_to_stl_with_gmsh, try_block, meshio_write.
  destruct (files w !! input_file) as [[m| | | |]|] eqn:Hin;
    try discriminate.
  destruct (temp_write ext); try discriminate.
  destruct (gmsh_init_ok ext); [|discriminate].
  destruct (gmsh_open_ok ext); [|discriminate].
  simpl. rewrite lookup_insert_eq.
  destruct (surface_mesh m) as [[output_mesh warnings]|e] eqn:Hs;
    [|discriminate].
  destruct (stl_write ext); try discriminate.
  intros [= <-]. exists m, output_mesh, warnings.
  split_and!; [done..|]. by rewrite finally_block_eq.
Qed.

(** When the pipeline raises, so does the call, and it writes no STL. *)
Lemma convert_pipeline_raises ext input_file output_file w m e :
  files w !! input_file = Some (InpFile m) →
  surface_mesh m = Raise e →
  (∃ e', (convert_to_stl_with_gmsh ext input_file output_file w).1
         = Raised e')
  ∧ no_new_stl w (convert_to_stl_with_gmsh ext input_file output_file w).2.
Proof.
  intros Hin Hs.
  unfold convert_to_stl_with_gmsh, try_block, meshio_write, no_new_stl.
  rewrite Hin.
  destruct (temp_write ext), (gmsh_init_ok ext), (gmsh_open_ok ext);
    simpl; rewrite ?lookup_insert_eq, ?Hs, ?finally_block_eq; simpl;
    (split; [eauto|]); intros path mesh;
    (destruct (decide (path = temp_msh_file)) as [->|Hne];
     [rewrite ?lookup_delete_eq, ?lookup_insert_eq; try discriminate
     |rewrite ?lookup_delete_ne, ?lookup_insert_ne by done]; try done).
Qed.
End Call.

(** ** Meshes of one element type *)

Lemma elements_of_length k g : length (elements_of k g) = length (elem_tags g).
Proof. apply take_rows_length. Qed.

Lemma elements_of_total k (element_types : list elem_group) :
  length (element_types ≫= elements_of k) = num_elements element_types.
Proof.
  unfold num_elements. induction element_types as [|g rest IH]; [done|].
  rewrite bind_cons, length_app, elements_of_length, fmap_cons. simpl.
  by rewrite IH.
Qed.


Lemma hex_name_not_tet name :
  name_in name hex_names = true → name_in name tet_names = false.
Proof.
  unfold name_in, hex_names, tet_names.
  intros Hhex%bool_decide_eq_true. apply bool_decide_eq_false.
  rewrite !elem_of_cons, elem_of_nil in *.
  intros Htet. destruct Hhex as [->|[->|[->|[->|[]]]]];
    destruct Htet as [?|[?|[?|[]]]]; discriminate.
Qed.

Lemma hex_group_faces g :
  hex_group g → group_faces g = Ok (concat (hex_faces <$> elements_of 8 g)).
Proof.
  intros [Hname Hlen]. unfold group_faces, elements_of.
  rewrite (hex_name_not_tet _ Hname), Hname.
  rewrite (reshape_rows (length (elem_tags g))) by (done || lia).
  done.
Qed.

(** The rows of a group are consecutive slices of its connectivity. *)
Lemma elements_of_rows k g :
  length (elem_connectivity g) = k * length (elem_tags g) →
  Forall (fun row => length row = k) (elements_of k g)
  ∧ concat (elements_of k g) = elem_connectivity g.
Proof.
  intros Hlen. unfold elements_of.
  split; [apply take_rows_rows|apply take_rows_concat]; lia.
Qed.

Lemma elements_of_all_rows k (P : elem_group → Prop)
    (element_types : list elem_group) :
  (∀ g, P g → length (elem_connectivity g) = k * length (elem_tags g)) →
  Forall P element_types →
  Forall (fun row => length row = k) (element_types ≫= elements_of k)
  ∧ concat (element_types ≫= elements_of k)
    = element_types ≫= elem_connectivity.
Proof.
  intros HP. induction 1 as [|g rest Hg _ [IH1 IH2]]; [done|].
  rewrite !bind_cons, concat_app, IH2.
  destruct (elements_of_rows k g (HP g Hg)) as [Hrows ->].
  split; [by apply Forall_app|done].
Qed.

(** ** The pipeline on a mesh whose nodes were all harvested *)

Section Pipeline.
Context {coord : Type}.
Implicit Types (m : fe_mesh coord).

(** The pipeline, one step per [match]. *)
Lemma surface_mesh_steps m :
  surface_mesh m
  = match reshape 3 (node_coords m) with
    | Raise e => Raise e
    | Ok coords =>
        match extract_surface (element_types m) with
        | Raise e => Raise e
        | Ok surface_elements =>
            match node_tags m with
            | [] => Raise EmptyMinError
            | _ :: _ =>
                let r := remap_faces (build_node_map (node_tags m))
                           surface_elements in
                if bool_decide (0 < length r.1)
                then Ok ({| points := coords; cells := r.1 |}, r.2)
                else Raise no_triangles_error
            end
        end
    end.
Proof.
  unfold surface_mesh.
  destruct (reshape 3 (node_coords m)) as [coords|e]; [|done]. simpl.
  destruct (extract_surface (element_types m)) as [faces|e]; [|done]. simpl.
  destruct (node_tags m) as [|tag tags]; [done|].
  by destruct (remap_faces _ faces).
Qed.

Lemma surface_mesh_valid m coords faces :
  reshape 3 (node_coords m) = Ok coords →
  direct_pass (element_types m) [] = Ok faces →
  faces ≠ [] →
  nodes_harvested (node_tags m) (element_types m) →
  ∃ triangles,
    surface_mesh m = Ok ({| points := coords; cells := triangles |}, [])
    ∧ length triangles = length faces.
Proof.
  intros Hcoords Hdirect Hne Hnodes.
  assert (Hvalid : Forall (Forall (fun node_tag =>
            is_Some (build_node_map (node_tags m) !! node_tag))) faces).
  { eapply Forall_impl; [by apply direct_pass_shape|].
    intros f (g & Hg & _ & Hsub). simpl.
    apply Forall_forall. intros node_tag Hin.
    apply build_node_map_is_Some.
    unfold nodes_harvested in Hnodes. rewrite Forall_forall in Hnodes.
    exact (Hnodes g Hg node_tag (Hsub node_tag Hin)). }
  destruct (remap_faces_valid _ _ Hvalid) as [Hlen Hwarn].
  assert (Hsurf : extract_surface (element_types m) = Ok faces).
  { rewrite extract_surface_direct, Hdirect. by destruct faces. }
  assert (Htags : node_tags m ≠ []).
  { intros Hnil. destruct faces as [|f faces]; [done|].
    apply Forall_cons in Hvalid as [Hf _].
    apply direct_pass_shape, Forall_cons in Hdirect
      as [(g & _ & Hlen3 & _) _].
    destruct f as [|node_tag f]; [done|].
    apply Forall_cons in Hf as [[i Hi] _].
    rewrite Hnil in Hi. unfold build_node_map in Hi. simpl in Hi.
    by rewrite lookup_empty in Hi. }
  rewrite surface_mesh_steps, Hcoords, Hsurf.
  destruct (node_tags m) as [|tag tags] eqn:Heq; [done|].
  cbv zeta. rewrite Hwarn, bool_decide_eq_true_2.
  - eauto.
  - rewrite Hlen. destruct faces; [done|simpl; lia].
Qed.
Lemma surface_mesh_Ok_inv m output_mesh warnings :
  surface_mesh m = Ok (output_mesh, warnings) →
  ∃ faces,
    reshape 3 (node_coords m) = Ok (points output_mesh)
    ∧ extract_surface (element_types m) = Ok faces
    ∧ remap_faces (build_node_map (node_tags m)) faces
      = (cells output_mesh, warnings)
    ∧ cells output_mesh ≠ [].
Proof.
  rewrite surface_mesh_steps.
  destruct (reshape 3 (node_coords m)) as [coords|e]; [|discriminate].
  destruct (extract_surface (element_types m)) as [faces|e];
    [|discriminate].
  destruct (node_tags m) as [|tag tags]; [discriminate|].
  cbv zeta. case_bool_decide as Hlen; [|discriminate].
  intros [= <- <-]. exists faces. simpl.
  split_and!; [done..|by apply surjective_pairing|].
  intros Hnil. rewrite Hnil in Hlen. simpl in Hlen. lia.
Qed.
End Pipeline.
(** ** Unclassified element types *)

Lemma group_faces_unrecognized g :
  recognized (elem_name g) = false →
  group_faces g = Raise (unknown_element_type (elem_name g)).
Proof.
  unfold recognized, group_faces.
  intros [[[-> ->]%orb_false_iff ->]%orb_false_iff ->]%orb_false_iff. done.
Qed.

Lemma group_faces_well_formed g :
  recognized (elem_name g) = true → well_formed_group g →
  ∃ faces, group_faces g = Ok faces.
Proof.
  unfold recognized, well_formed_group, nodes_per_element, group_faces.
  intros Hrec Hwf.
  destruct (name_in (elem_name g) tet_names);
    [|destruct (name_in (elem_name g) hex_names);
      [|destruct (name_in (elem_name g) tri_names);
        [|destruct (name_in (elem_name g) quad_names); [|done]]]];
    rewrite (reshape_rows (length (elem_tags g))) by (done || lia);
    simpl; eauto.
Qed.

(** The first loop stops at the first element type it cannot classify. *)
Lemma direct_pass_unknown element_types acc g :
  Forall well_formed_group element_types →
  g ∈ element_types → recognized (elem_name g) = false →
  ∃ g', g' ∈ element_types ∧ recognized (elem_name g') = false
        ∧ direct_pass element_types acc
          = Raise (unknown_element_type (elem_name g')).
Proof.
  intros Hwf. revert acc.
  induction Hwf as [|g0 rest Hg0 _ IH]; intros acc Hin Hg.
  - by apply elem_of_nil in Hin.
  - destruct (recognized (elem_name g0)) eqn:Hrec.
    + apply elem_of_cons in Hin as [->|Hin]; [congruence|].
      destruct (group_faces_well_formed g0 Hrec Hg0) as [faces Hfaces].
      destruct (IH (acc ++ faces) Hin Hg) as (g' & Hg' & Hrec' & Hd).
      exists g'. split_and!; [by right|done|].
      simpl. rewrite Hfaces. exact Hd.
    + exists g0. split_and!; [by left|done|].
      simpl. by rewrite (group_faces_unrecognized g0 Hrec).
Qed.

(** Under a name the first loop does not classify, a mesh of one kind of
    element raises at its first element type. *)
Lemma direct_pass_reported_name (name : string)
    (element_types : list elem_group) :
  recognized name = false → element_types ≠ [] →
  Forall (fun g => elem_name g = name) element_types →
  direct_pass element_types [] = Raise (unknown_element_type name)
  ∧ extract_surface element_types = Raise (unknown_element_type name).
Proof.
  intros Hrec Hne Hnames.
  destruct Hnames as [|g rest Hg _]; [done|].
  assert (Hdirect : direct_pass (g :: rest) []
                    = Raise (unknown_element_type name)).
  { simpl. rewrite group_faces_unrecognized by by rewrite Hg.
    by rewrite Hg. }
  split; [done|]. by rewrite extract_surface_direct, Hdirect.
Qed.

(** ** When the pipeline raises *)

Section Failures.
Context {coord : Type}.
Implicit Types (m : fe_mesh coord) (w : world coord) (ext : externals).

Lemma surface_mesh_no_face m :
  no_face_derived (element_types m) →
  ∃ e, surface_mesh m = Raise e
       ∧ (∀ coords, reshape 3 (node_coords m) = Ok coords →
          e = no_surface_error).
Proof.
  intros [Hdirect _]. rewrite surface_mesh_steps, extract_surface_direct.
  rewrite Hdirect.
  destruct (reshape 3 (node_coords m)) as [coords|e]; eauto.
  eexists. split; [done|]. discriminate.
Qed.

Lemma surface_mesh_no_triangle m :
  no_valid_triangle (node_tags m) (element_types m) →
  ∃ e, surface_mesh m = Raise e
       ∧ (∀ coords, reshape 3 (node_coords m) = Ok coords →
          node_tags m ≠ [] → e = no_triangles_error).
Proof.
  intros (faces & Hfaces & Hnone). rewrite surface_mesh_steps, Hfaces.
  destruct (reshape 3 (node_coords m)) as [coords|e];
    [|eexists; split; [done|discriminate]].
  destruct (node_tags m) as [|tag tags]; [eexists; split; done|].
  cbv zeta. rewrite Hnone. simpl. eauto.
Qed.

(** Once the gmsh session is open, the pipeline's exception is the call's
    and the temporary file is removed. *)
Lemma convert_raises_in_try ext input_file output_file w m e :
  files w !! input_file = Some (InpFile m) →
  temp_write ext = IoDone → gmsh_init_ok ext = true →
  gmsh_open_ok ext = true →
  surface_mesh m = Raise e →
  (convert_to_stl_with_gmsh ext input_file output_file w).1 = Raised e
  ∧ files (convert_to_stl_with_gmsh ext input_file output_file w).2
    !! temp_msh_file = None.
Proof.
  intros Hin Htemp Hinit Hopen Hs.
  rewrite (convert_in_try ext input_file output_file w m), Hs by done.
  split; [done|]. apply finally_block_no_temp.
Qed.

(** The [finally] block runs once [gmsh.initialize()] has returned. *)
Lemma convert_cleans_up_in_try ext input_file output_file w m :
  files w !! input_file = Some (InpFile m) →
  temp_write ext = IoDone → gmsh_init_ok ext = true →
  files (convert_to_stl_with_gmsh ext input_file output_file w).2
  !! temp_msh_file = None.
Proof.
  intros Hin Htemp Hinit. unfold convert_to_stl_with_gmsh.
  rewrite Hin, Htemp, Hinit. simpl.
  destruct (try_block _ _ _) as [r w']. apply finally_block_no_temp.
Qed.
End Failures.

(** ** The fallback pass on two tetrahedra *)



(** ** The fallback pass on hexahedra *)

Lemma hex_name_not_fallback name :
  name_in name hex_names = true →
  str_contains "4-node tetrahedron" name || str_contains "Tetrahedron" name
  = false.
Proof.
  unfold name_in, hex_names. intros Hhex%bool_decide_eq_true.
  rewrite !elem_of_cons, elem_of_nil in Hhex.
  by destruct Hhex as [->|[->|[->|[->|[]]]]].
Qed.

Lemma fallback_pass_hexahedra element_types all_faces :
  Forall (fun g => name_in (elem_name g) hex_names = true) element_types →
  fallback_pass element_types all_faces = Ok all_faces.
Proof.
  induction 1 as [|g rest Hg _ IH]; [done|].
  simpl. unfold fallback_group. by rewrite (hex_name_not_fallback _ Hg).
Qed.

(** * The claims *)




(** C2 (amended).  For a mesh whose element types are all hexahedral: the
    fallback loop derives no face from it, whatever its elements (it does
    not handle hexahedra); the conversion reaches that loop and fails with
    ["Could not extract any surface elements"] when the mesh holds no
    hexahedron at all; with at least one hexahedron (eight nodes per
    element) the direct pass emits twelve faces per hexahedron, and these
    reach the remapping: the conversion does not fail for lack of faces. *)
Theorem C2_hexahedra_only (element_types : list elem_group) :
  Forall (fun g => name_in (elem_name g) hex_names = true) element_types →
  (∀ all_faces, fallback_pass element_types all_faces = Ok all_faces)
  ∧ (element_types ≫= elem_connectivity = [] →
     direct_pass element_types [] = Ok []
     ∧ extract_surface element_types = Raise no_surface_error)
  ∧ (Forall hex_group element_types → 0 < num_elements element_types →
     ∃ faces, extract_surface element_types = Ok faces
              ∧ direct_pass element_types [] = Ok faces
              ∧ length faces = 12 * num_elements element_types).
Proof.
  intros Hhex. split_and!.
  - intros all_faces. by apply fallback_pass_hexahedra.
  - intros Hnone.
    assert (Hdirect : direct_pass element_types [] = Ok []).
    { induction Hhex as [|g rest Hg _ IH]; [done|].
      rewrite bind_cons in Hnone. apply app_eq_nil in Hnone as [Hg0 Hrest].
      rewrite direct_pass_cons. unfold group_faces.
      rewrite (hex_name_not_tet _ Hg), Hg, Hg0, reshape_nil. simpl.
      by rewrite (IH Hrest). }
    split; [done|]. by rewrite extract_surface_direct, Hdirect.
  - intros Hgroups Hpos.
    assert (Hdirect : direct_pass element_types []
              = Ok (concat (hex_faces <$> (element_types ≫= elements_of 8)))).
    { apply direct_pass_uniform.
      eapply Forall_impl; [exact Hgroups|]. apply hex_group_faces. }
    assert (Hlen : length (concat (hex_faces
                                     <$> (element_types ≫= elements_of 8)))
                   = 12 * num_elements element_types).
    { rewrite <- (elements_of_total 8). by apply length_concat_const. }
    eexists. split_and!; [|exact Hdirect|exact Hlen].
    rewrite extract_surface_direct, Hdirect.
    destruct (concat _) as [|f faces]; [simpl in Hlen; lia|done].
Qed.

Lemma C2_hexahedra_only_witness :
  fallback_pass (element_types unit_cube_mesh) [] = Ok []
  ∧ ∃ faces, extract_surface (element_types unit_cube_mesh) = Ok faces
             ∧ length faces = 12.
Proof.
  destruct (C2_hexahedra_only (element_types unit_cube_mesh))
    as (Hfallback & _ & Hdirect).
  - repeat constructor.
  - split; [apply Hfallback|].
    destruct Hdirect as (faces & Hs & _ & Hlen).
    + repeat constructor.
    + vm_compute. lia.
    + exists faces. split; [exact Hs|exact Hlen].
Defined.

(** The claim C2 as stated fails on the unit cube: twelve faces are derived
    and the call returns. *)
Lemma C2_counterexample :
  Forall (fun g => name_in (elem_name g) hex_names = true)
    (element_types unit_cube_mesh)
  ∧ ¬ (extract_surface (element_types unit_cube_mesh)
       = Raise no_surface_error)
  ∧ (∃ faces, extract_surface (element_types unit_cube_mesh) = Ok faces
              ∧ length faces = 12)
  ∧ ¬ (∃ w', convert_to_stl_with_gmsh ext_ok "Job.inp" "Job_surface.stl"
               (job_world unit_cube_mesh) = (Raised no_surface_error, w'))
  ∧ (convert_to_stl_with_gmsh ext_ok "Job.inp" "Job_surface.stl"
       (job_world unit_cube_mesh)).1 = Returned.
Proof.
  split_and!.
  - repeat constructor.
  - discriminate.
  - eexists. split; reflexivity.
  - intros [w' Hconv]. discriminate Hconv.
  - reflexivity.
Qed.

(** C3.  The temporary file is not removed on every exit: when
    [gmsh.initialize()] raises, after the temporary file was written and
    before the [try] block is entered, the call ends with that exception
    and the temporary file is still there. *)
Theorem C3_temp_file_left_when_init_fails {coord} (ext : externals)
    (input_file output_file : string) (w : world coord) (m : fe_mesh coord) :
  files w !! input_file = Some (InpFile m) →
  temp_write ext = IoDone → gmsh_init_ok ext = false →
  ∃ w',
    convert_to_stl_with_gmsh ext input_file output_file w
    = (Raised GmshInitError, w')
    ∧ files w' !! temp_msh_file = Some (MshFile m).
Proof.
  intros Hin Htemp Hinit. unfold convert_to_stl_with_gmsh.
  rewrite Hin, Htemp, Hinit. simpl.
  eexists. split; [reflexivity|]. simpl. apply lookup_insert_eq.
Qed.

Lemma C3_temp_file_left_witness :
  ∃ w',
    convert_to_stl_with_gmsh ext_init_fails "Job.inp" "Job_surface.stl"
      (job_world single_tet_mesh) = (Raised GmshInitError, w')
    ∧ files w' !! temp_msh_file = Some (MshFile single_tet_mesh).
Proof.
  exact (C3_temp_file_left_when_init_fails ext_init_fails
           "Job.inp" "Job_surface.stl" (job_world single_tet_mesh)
           single_tet_mesh eq_refl eq_refl eq_refl).
Defined.

(** C4.  When the input mesh yields no face in either loop, or when faces
    are derived but none survives the remapping, the call raises and leaves
    no STL file that was not there before; when the library calls succeed
    the exception is the script's own ["Could not extract any surface
    elements"], respectively ["No valid triangles to write"], and the
    temporary file is removed. *)
Theorem C4_no_faces_fatal {coord} (ext : externals)
    (input_file output_file : string) (w : world coord) (m : fe_mesh coord) :
  files w !! input_file = Some (InpFile m) →
  no_face_derived (element_types m)
  ∨ no_valid_triangle (node_tags m) (element_types m) →
  ∃ e w',
    convert_to_stl_with_gmsh ext input_file output_file w = (Raised e, w')
    ∧ no_new_stl w w'
    ∧ (temp_write ext = IoDone → gmsh_init_ok ext = true →
       gmsh_open_ok ext = true →
       ∀ coords, reshape 3 (node_coords m) = Ok coords →
       files w' !! temp_msh_file = None
       ∧ (no_face_derived (element_types m) → e = no_surface_error)
       ∧ (no_valid_triangle (node_tags m) (element_types m) →
          node_tags m ≠ [] → e = no_triangles_error)).
Proof.
  intros Hin Hzero.
  assert (∃ e, surface_mesh m = Raise e) as [e0 Hs].
  { destruct Hzero as [(e & He & _)%surface_mesh_no_face
                      |(e & He & _)%surface_mesh_no_triangle]; eauto. }
  destruct (convert_pipeline_raises ext input_file output_file w m e0 Hin Hs)
    as [[e He] Hstl].
  destruct (convert_to_stl_with_gmsh ext input_file output_file w)
    as [r w'] eqn:Hconv.
  simpl in He, Hstl. subst r. exists e, w'. split_and!; [done..|].
  intros Htemp Hinit Hopen coords Hcoords.
  destruct (convert_raises_in_try ext input_file output_file w m e0)
    as [Hr Hfile]; [done..|].
  rewrite Hconv in Hr, Hfile. simpl in Hr, Hfile. injection Hr as ->.
  split_and!; [done| |].
  - intros (e1 & He1 & Hwhich)%surface_mesh_no_face.
    rewrite Hs in He1. injection He1 as ->. by eapply Hwhich.
  - intros (e1 & He1 & Hwhich)%surface_mesh_no_triangle Htags.
    rewrite Hs in He1. injection He1 as ->. by eapply Hwhich.
Qed.

Lemma C4_no_faces_witness :
  (convert_to_stl_with_gmsh ext_ok "Job.inp" "Job_surface.stl"
     (job_world all_dangling_mesh)).1 = Raised no_triangles_error
  ∧ (convert_to_stl_with_gmsh ext_ok "Job.inp" "Job_surface.stl"
       (job_world no_element_mesh)).1 = Raised no_surface_error.
Proof.
  assert (Hdangling : no_valid_triangle (node_tags all_dangling_mesh)
                        (element_types all_dangling_mesh)).
  { exists [[7; 8; 9]%N]. split; reflexivity. }
  assert (Hnone : no_face_derived (element_types no_element_mesh)).
  { split; [reflexivity|]. exists []. split; reflexivity. }
  split.
  - destruct (C4_no_faces_fatal ext_ok "Job.inp" "Job_surface.stl"
                (job_world all_dangling_mesh) all_dangling_mesh eq_refl
                (or_intror Hdangling))
      as (e & w' & Hconv & _ & Hwhich).
    destruct (Hwhich eq_refl eq_refl eq_refl _ eq_refl) as (_ & _ & He).
    rewrite Hconv. simpl. f_equal. apply He; [exact Hdangling|discriminate].
  - destruct (C4_no_faces_fatal ext_ok "Job.inp" "Job_surface.stl"
                (job_world no_element_mesh) no_element_mesh eq_refl
                (or_introl Hnone))
      as (e & w' & Hconv & _ & Hwhich).
    destruct (Hwhich eq_refl eq_refl eq_refl _ eq_refl) as (_ & He & _).
    rewrite Hconv. simpl. f_equal. apply He. exact Hnone.
Defined.

(** C5.  When the input mesh has an element type whose name the first loop
    does not classify (gmsh's buffers being well formed and the library
    calls succeeding), the call raises the script's ["Unknown element
    type: <name>"] for such a type, the first in gmsh's order; no STL file
    appears and the temporary file is removed. *)
Theorem C5_unknown_element_type_fatal {coord} (ext : externals)
    (input_file output_file : string) (w : world coord) (m : fe_mesh coord)
    (g : elem_group) :
  files w !! input_file = Some (InpFile m) →
  temp_write ext = IoDone → gmsh_init_ok ext = true →
  gmsh_open_ok ext = true →
  length (node_coords m) = 3 * length (node_tags m) →
  Forall well_formed_group (element_types m) →
  g ∈ element_types m → recognized (elem_name g) = false →
  ∃ g' w',
    g' ∈ element_types m ∧ recognized (elem_name g') = false
    ∧ convert_to_stl_with_gmsh ext input_file output_file w
      = (Raised (unknown_element_type (elem_name g')), w')
    ∧ no_new_stl w w'
    ∧ files w' !! temp_msh_file = None.
Proof.
  intros Hin Htemp Hinit Hopen Hcoords Hwf Hg Hrec.
  destruct (direct_pass_unknown (element_types m) [] g Hwf Hg Hrec)
    as (g' & Hg' & Hrec' & Hdirect).
  assert (Hs : surface_mesh m = Raise (unknown_element_type (elem_name g'))).
  { rewrite surface_mesh_steps, extract_surface_direct, Hdirect.
    by rewrite (reshape_rows (length (node_tags m))) by (done || lia). }
  destruct (convert_pipeline_raises ext input_file output_file w m _ Hin Hs)
    as [_ Hstl].
  destruct (convert_raises_in_try ext input_file output_file w m _
              Hin Htemp Hinit Hopen Hs) as [Hr Hfile].
  destruct (convert_to_stl_with_gmsh ext input_file output_file w)
    as [r w'] eqn:Hconv.
  simpl in *. subst r. exists g', w'. by split_and!.
Qed.

Lemma C5_unknown_element_type_witness :
  convert_to_stl_with_gmsh ext_ok "Job.inp" "Job_surface.stl"
    (job_world line_mesh)
  = (Raised (ValueError "Unknown element type: Line 2"), job_world line_mesh).
Proof.
  destruct (C5_unknown_element_type_fatal ext_ok "Job.inp" "Job_surface.stl"
              (job_world line_mesh) line_mesh
              {| elem_name := "Line 2"; elem_tags := [2]%N;
                 elem_connectivity := [1; 2]%N |}
              eq_refl eq_refl eq_refl eq_refl eq_refl)
    as (g' & w' & _ & _ & Hconv & _ & _).
  - repeat (apply Forall_cons_2; [vm_compute; done|]). apply Forall_nil_2.
  - simpl. set_solver.
  - reflexivity.
  - reflexivity.
Defined.

(** C6.  A derived face with a node that was not harvested does not make
    the remapping raise: the lookup of the face fails on one of its nodes,
    a warning names that node, the face contributes no triangle and the
    faces before and after it are remapped as they would be without it.
    When at least one triangle is kept and the library calls succeed, the
    call returns and the STL file holds exactly the kept triangles. *)
Theorem C6_dangling_face_skipped {coord} (ext : externals)
    (input_file output_file : string) (w : world coord) (m : fe_mesh coord)
    (coords : list (list coord)) (before after : list face) (f : face) :
  files w !! input_file = Some (InpFile m) →
  temp_write ext = IoDone → gmsh_init_ok ext = true →
  gmsh_open_ok ext = true → stl_write ext = IoDone →
  reshape 3 (node_coords m) = Ok coords →
  extract_surface (element_types m) = Ok (before ++ f :: after) →
  (∃ node_tag, node_tag ∈ f ∧ node_tag ∉ (node_tags m)) →
  let node_map := build_node_map (node_tags m) in
  let kept := (remap_faces node_map before).1
              ++ (remap_faces node_map after).1 in
  ∃ k warnings,
    map_face node_map f = KeyError k ∧ k ∈ f ∧ (k ∉ node_tags m)
    ∧ warnings = ((remap_faces node_map before).2
                  ++ k :: (remap_faces node_map after).2)
    ∧ remap_faces node_map (before ++ f :: after) = (kept, warnings)
    ∧ (kept ≠ [] →
       surface_mesh m = Ok ({| points := coords; cells := kept |}, warnings)
       ∧ convert_to_stl_with_gmsh ext input_file output_file w
         = (Returned,
            {| files := delete temp_msh_file
                 (<[output_file :=
                      StlFile {| points := coords; cells := kept |}]>
                    (<[temp_msh_file := MshFile m]> (files w)));
               gmsh_live := false |})).
Proof.
  intros Hin Htemp Hinit Hopen Hstl Hcoords Hfaces (node_tag & Htag & Hnone)
    node_map kept.
  destruct (proj2 (map_face_dangling node_map f)) as [k Hk].
  { exists node_tag. split; [done|].
    apply eq_None_not_Some. unfold node_map.
    by rewrite build_node_map_is_Some. }
  destruct (map_face_KeyError _ _ _ Hk) as [Hkf Hknone].
  assert (Hremap : remap_faces node_map (before ++ f :: after)
            = (kept, (remap_faces node_map before).2
                     ++ k :: (remap_faces node_map after).2)).
  { rewrite remap_faces_app. simpl.
    destruct (remap_faces node_map after) as [ts ws]. by rewrite Hk. }
  eexists k, _. split_and!; [done|done| |reflexivity|done|].
  - intros Hk'%build_node_map_is_Some. fold node_map in Hk'.
    rewrite Hknone in Hk'. by destruct Hk'.
  - intros Hkept.
    assert (Hs : surface_mesh m
              = Ok ({| points := coords; cells := kept |},
                    (remap_faces node_map before).2
                    ++ k :: (remap_faces node_map after).2)).
    { rewrite surface_mesh_steps, Hcoords, Hfaces.
      fold node_map. rewrite Hremap. cbv zeta. simpl.
      destruct (node_tags m) as [|tag tags] eqn:Htags.
      - exfalso. destruct kept as [|t kept'] eqn:Hk'; [done|].
        assert (Ht : t ∈ (remap_faces node_map (before ++ f :: after)).1).
        { rewrite Hremap. simpl. by left. }
        apply remap_faces_elem in Ht as (f' & Hf' & Hmap%map_face_Mapped).
        apply extract_surface_Ok_inv in Hfaces as [Hdirect _].
        apply direct_pass_shape in Hdirect.
        rewrite Forall_forall in Hdirect.
        destruct (Hdirect f' Hf') as (g & _ & Hlen & _).
        destruct Hmap as [|node_tag' i f'' t' Hi _]; [done|].
        unfold node_map in Hi. rewrite ?Htags in Hi.
        unfold build_node_map in Hi. simpl in Hi.
        by rewrite lookup_empty in Hi.
      - rewrite bool_decide_eq_true_2; [done|].
        destruct kept; [done|simpl; lia]. }
    split; [exact Hs|].
    rewrite (convert_in_try ext input_file output_file w m) by done.
    rewrite Hs, Hstl. simpl. by rewrite finally_block_eq.
Qed.

Lemma C6_dangling_face_witness :
  surface_mesh dangling_mesh
  = Ok ({| points := [[0; 0; 0]; [1; 0; 0]; [0; 1; 0]]%Z;
           cells := [[0; 1; 2]] |}, [7%N])
  ∧ (convert_to_stl_with_gmsh ext_ok "Job.inp" "Job_surface.stl"
       (job_world dangling_mesh)).1 = Returned.
Proof.
  destruct (C6_dangling_face_skipped ext_ok "Job.inp" "Job_surface.stl"
              (job_world dangling_mesh) dangling_mesh
              [[0; 0; 0]; [1; 0; 0]; [0; 1; 0]]%Z
              [[1; 2; 3]%N] [] [1; 2; 7]%N
              eq_refl eq_refl eq_refl eq_refl eq_refl eq_refl eq_refl)
    as (k & warnings & Hk & _ & _ & Hw & _ & Hend).
  { exists 7%N. split; [set_solver|]. simpl. set_solver. }
  vm_compute in Hk. injection Hk as <-. vm_compute in Hw. subst warnings.
  destruct Hend as [Hs Hconv]; [discriminate|].
  split; [exact Hs|]. by rewrite Hconv.
Defined.





(** C8.  In a mesh of hexahedra (every element type is classified as a
    hexahedron and has eight nodes per element) the direct classification
    pass emits, for every hexahedron in turn, twelve triangles: two for the
    bottom quadrilateral (positions 0-1-2, 0-2-3), two for the top (4-5-6,
    4-6-7) and two for each of the four sides, which pair a bottom edge
    with the top edge above it; so twelve times as many faces as there are
    hexahedra, and, when every node was harvested, as many triangles for
    the STL writer, without a warning. *)
Theorem C8_hexahedra_direct_faces {coord} (m : fe_mesh coord) :
  Forall hex_group (element_types m) →
  let hexes := element_types m ≫= elements_of 8 in
  length hexes = num_elements (element_types m)
  ∧ concat hexes = element_types m ≫= elem_connectivity
  ∧ Forall (fun hex_elem => ∃ n0 n1 n2 n3 n4 n5 n6 n7,
              hex_elem = [n0; n1; n2; n3; n4; n5; n6; n7]
              ∧ hex_faces hex_elem
                = [ [n0; n1; n2]; [n0; n2; n3];
                    [n4; n5; n6]; [n4; n6; n7];
                    [n0; n1; n5]; [n0; n5; n4];
                    [n1; n2; n6]; [n1; n6; n5];
                    [n2; n3; n7]; [n2; n7; n6];
                    [n3; n0; n4]; [n3; n4; n7] ])
      hexes
  ∧ direct_pass (element_types m) [] = Ok (concat (hex_faces <$> hexes))
  ∧ length (concat (hex_faces <$> hexes))
    = 12 * num_elements (element_types m)
  ∧ (0 < num_elements (element_types m) →
     nodes_harvested (node_tags m) (element_types m) →
     ∀ coords, reshape 3 (node_coords m) = Ok coords →
     ∃ triangles,
       surface_mesh m = Ok ({| points := coords; cells := triangles |}, [])
       ∧ length triangles = 12 * num_elements (element_types m)).
Proof.
  intros Hm hexes.
  assert (Hcount : length hexes = num_elements (element_types m))
    by apply elements_of_total.
  destruct (elements_of_all_rows 8 hex_group (element_types m)) as [Hrows Hcat];
    [by intros g [_ ?]|done|].
  assert (Hdirect : direct_pass (element_types m) []
                    = Ok (concat (hex_faces <$> hexes))).
  { apply direct_pass_uniform.
    eapply Forall_impl; [exact Hm|]. apply hex_group_faces. }
  assert (Hlen : length (concat (hex_faces <$> hexes))
                 = 12 * num_elements (element_types m)).
  { rewrite <- Hcount. by apply length_concat_const. }
  split_and!; try done.
  - eapply Forall_impl; [exact Hrows|]. intros hex_elem Hhex. simpl in Hhex.
    destruct hex_elem as [|n0 [|n1 [|n2 [|n3 [|n4 [|n5 [|n6 [|n7 [|]]]]]]]]];
      try discriminate.
    by exists n0, n1, n2, n3, n4, n5, n6, n7.
  - intros Hpos Hnodes coords Hcoords.
    destruct (surface_mesh_valid m coords _ Hcoords Hdirect)
      as (triangles & Hs & Htri); [|done|].
    + intros Hnil. rewrite Hnil in Hlen. simpl in Hlen. lia.
    + exists triangles. split; [done|]. by rewrite Htri.
Qed.

Lemma C8_hexahedra_witness :
  Forall hex_group (element_types unit_cube_mesh)
  ∧ direct_pass (element_types unit_cube_mesh) []
    = Ok [ [1; 2; 3]; [1; 3; 4]; [5; 6; 7]; [5; 7; 8];
           [1; 2; 6]; [1; 6; 5]; [2; 3; 7]; [2; 7; 6];
           [3; 4; 8]; [3; 8; 7]; [4; 1; 5]; [4; 5; 8] ]%N
  ∧ ∃ coords triangles,
      surface_mesh unit_cube_mesh
      = Ok ({| points := coords; cells := triangles |}, [])
      ∧ length coords = 8 ∧ length triangles = 12.
Proof.
  assert (H : Forall hex_group (element_types unit_cube_mesh)).
  { repeat constructor. }
  split; [exact H|].
  destruct (C8_hexahedra_direct_faces unit_cube_mesh H)
    as (_ & _ & _ & Hdirect & _ & Hend).
  split; [exact Hdirect|].
  destruct (Hend ltac:(vm_compute; lia)
              ltac:(apply Forall_cons_2; [simpl; set_solver|apply Forall_nil_2])
              _ eq_refl) as (triangles & Hs & Hlen).
  eexists _, triangles. split; [exact Hs|]. split; [reflexivity|exact Hlen].
Defined.

(** C9.  After a call that returns, the STL file holds a mesh whose every
    triangle has three indices; each index is below the number of harvested
    nodes and is the index the node map gives to a harvested node tag, which
    stands at that position of [node_tags]; the triangle is the image of one
    of the derived faces under the node map. *)
Theorem C9_triangle_indices_in_range {coord} (ext : externals)
    (input_file output_file : string) (w w' : world coord) :
  convert_to_stl_with_gmsh ext input_file output_file w = (Returned, w') →
  ∃ m output_mesh faces,
    files w !! input_file = Some (InpFile m)
    ∧ files w' = delete temp_msh_file
                   (<[output_file := StlFile output_mesh]>
                      (<[temp_msh_file := MshFile m]> (files w)))
    ∧ extract_surface (element_types m) = Ok faces
    ∧ ∀ t, t ∈ cells output_mesh →
        length t = 3
        ∧ (∃ f, f ∈ faces
                ∧ Forall2 (fun node_tag i =>
                     build_node_map (node_tags m) !! node_tag = Some i) f t)
        ∧ ∀ i, i ∈ t →
            i < length (node_tags m)
            ∧ ∃ node_tag, node_tags m !! i = Some node_tag
                          ∧ build_node_map (node_tags m) !! node_tag = Some i.
Proof.
  intros (m & output_mesh & warnings & Hin & Hs & ->)%convert_Returned_inv.
  apply surface_mesh_Ok_inv in Hs as (faces & _ & Hfaces & Hremap & _).
  exists m, output_mesh, faces. split_and!; [done..|].
  intros t Ht.
  assert (Ht' : t ∈ (remap_faces (build_node_map (node_tags m)) faces).1)
    by by rewrite Hremap.
  apply remap_faces_elem in Ht' as (f & Hf & Hmap%map_face_Mapped).
  apply extract_surface_Ok_inv in Hfaces as [Hdirect _].
  apply direct_pass_shape in Hdirect. rewrite Forall_forall in Hdirect.
  destruct (Hdirect f Hf) as (g & _ & Hlen & _).
  split_and!.
  - by rewrite <- (Forall2_length _ _ _ Hmap).
  - eauto.
  - intros i [j Hj]%list_elem_of_lookup.
    destruct (Forall2_lookup_r _ _ _ _ _ Hmap Hj) as (node_tag & _ & Hi).
    destruct (build_node_map_lookup _ _ _ Hi) as [Hpos Hlt]. eauto.
Qed.

Lemma C9_triangle_indices_witness :
  ∃ w' output_mesh,
    convert_to_stl_with_gmsh ext_ok "Job.inp" "Job_surface.stl"
      (job_world two_tets_mesh) = (Returned, w')
    ∧ files w' !! "Job_surface.stl"%string = Some (StlFile output_mesh)
    ∧ ∀ t, t ∈ cells output_mesh → length t = 3 ∧ ∀ i, i ∈ t → i < 5.
Proof.
  set (w' := (convert_to_stl_with_gmsh ext_ok "Job.inp" "Job_surface.stl"
                (job_world two_tets_mesh)).2).
  destruct (C9_triangle_indices_in_range ext_ok "Job.inp" "Job_surface.stl"
              (job_world two_tets_mesh) w' eq_refl)
    as (m & output_mesh & faces & Hin & Hfiles & _ & Hcells).
  apply (inj Some) in Hin. injection Hin as <-.
  exists w', output_mesh. split; [reflexivity|]. split.
  - rewrite Hfiles, lookup_delete_ne by discriminate.
    apply lookup_insert_eq.
  - intros t Ht. destruct (Hcells t Ht) as (Hlen & _ & Hidx).
    split; [exact Hlen|]. intros i Hi. by destruct (Hidx i Hi) as [Hlt _].
Defined.

(** C10.  After a call that returns, the points of the mesh in the STL file
    are the rows of the whole harvested coordinate buffer, three coordinates
    per row, in read order, whatever the triangles refer to: none is left
    out; when gmsh gave three coordinates per node tag there is one row per
    harvested node. *)
Theorem C10_all_nodes_written {coord} (ext : externals)
    (input_file output_file : string) (w w' : world coord) :
  convert_to_stl_with_gmsh ext input_file output_file w = (Returned, w') →
  ∃ m output_mesh,
    files w !! input_file = Some (InpFile m)
    ∧ files w' = delete temp_msh_file
                   (<[output_file := StlFile output_mesh]>
                      (<[temp_msh_file := MshFile m]> (files w)))
    ∧ reshape 3 (node_coords m) = Ok (points output_mesh)
    ∧ concat (points output_mesh) = node_coords m
    ∧ Forall (fun p => length p = 3) (points output_mesh)
    ∧ (length (node_coords m) = 3 * length (node_tags m) →
       length (points output_mesh) = length (node_tags m)).
Proof.
  intros (m & output_mesh & warnings & Hin & Hs & ->)%convert_Returned_inv.
  apply surface_mesh_Ok_inv in Hs as (faces & Hcoords & _).
  exists m, output_mesh. split_and!; [done..| | |].
  - by apply reshape_Ok_inv in Hcoords as (_ & _ & ?); [|lia].
  - by apply reshape_Ok_inv in Hcoords as (_ & ? & _); [|lia].
  - apply reshape_Ok_inv in Hcoords as (Hlen & _ & _); [|lia]. lia.
Qed.

Lemma C10_all_nodes_witness :
  ∃ w' output_mesh,
    convert_to_stl_with_gmsh ext_ok "Job.inp" "Job_surface.stl"
      (job_world spare_node_mesh) = (Returned, w')
    ∧ files w' !! "Job_surface.stl"%string = Some (StlFile output_mesh)
    ∧ points output_mesh
      = [[0; 0; 0]; [1; 0; 0]; [0; 1; 0]; [0; 0; 1]; [5; 5; 5]]%Z
    ∧ cells output_mesh = [[0; 1; 2]; [0; 1; 3]; [0; 2; 3]; [1; 2; 3]].
Proof.
  set (w' := (convert_to_stl_with_gmsh ext_ok "Job.inp" "Job_surface.stl"
                (job_world spare_node_mesh)).2).
  destruct (C10_all_nodes_written ext_ok "Job.inp" "Job_surface.stl"
              (job_world spare_node_mesh) w' eq_refl)
    as (m & output_mesh & Hin & Hfiles & Hcoords & _).
  apply (inj Some) in Hin. injection Hin as <-.
  assert (Hout : files w' !! "Job_surface.stl"%string
                 = Some (StlFile output_mesh)).
  { rewrite Hfiles, lookup_delete_ne by discriminate.
    apply lookup_insert_eq. }
  exists w', output_mesh. split; [reflexivity|]. split; [exact Hout|].
  vm_compute in Hout. injection Hout as <-. split; reflexivity.
Defined.

(** * Further properties of the conversion *)

(** ** Native surface elements and mixed meshes *)

Lemma tri_name_not_volume name :
  name_in name tri_names = true →
  name_in name tet_names = false ∧ name_in name hex_names = false.
Proof.
  unfold name_in, tri_names.
  intros Htri%bool_decide_eq_true.
  rewrite !elem_of_cons, elem_of_nil in Htri.
  by destruct Htri as [->|[->|[->|[]]]].
Qed.

Lemma quad_name_not_other name :
  name_in name quad_names = true →
  name_in name tet_names = false ∧ name_in name hex_names = false
  ∧ name_in name tri_names = false.
Proof.
  unfold name_in, quad_names.
  intros Hquad%bool_decide_eq_true.
  rewrite !elem_of_cons, elem_of_nil in Hquad.
  by destruct Hquad as [->|[->|[->|[]]]].
Qed.

Lemma tri_group_faces g :
  tri_group g → group_faces g = Ok (elements_of 3 g).
Proof.
  intros [Hname Hlen]. unfold group_faces.
  destruct (tri_name_not_volume _ Hname) as [-> ->]. rewrite Hname.
  rewrite (reshape_rows (length (elem_tags g))) by (done || lia).
  simpl. f_equal. fold (elements_of 3 g).
  destruct (elements_of_rows 3 g Hlen) as [Hrows _].
  induction Hrows as [|row rows Hrow _ IH]; [done|].
  rewrite fmap_cons. cbn [concat]. rewrite IH.
  by destruct row as [|a [|b [|c [|]]]].
Qed.

Lemma quad_group_faces g :
  quad_group g → group_faces g = Ok (concat (quad_faces <$> elements_of 4 g)).
Proof.
  intros [Hname Hlen]. unfold group_faces, elements_of.
  destruct (quad_name_not_other _ Hname) as (-> & -> & ->). rewrite Hname.
  by rewrite (reshape_rows (length (elem_tags g))) by (done || lia).
Qed.

(** X1.  In a mesh of triangle elements (three nodes per element): when
    every element type has one of the names the first loop classifies as
    triangle (["3-node triangle"], ["Triangle"], ["triangle"]), the direct
    pass emits every element as it is, one face per element and in gmsh's
    order, the faces being the rows of the connectivity buffers; when the
    element types have the name gmsh reports for triangles, ["Triangle 3"],
    which is none of these, the direct pass raises ["Unknown element type:
    Triangle 3"] and emits nothing. *)
Theorem X1_triangles_by_reported_name (element_types : list elem_group) :
  Forall (fun g => length (elem_connectivity g) = 3 * length (elem_tags g))
    element_types →
  let triangles := element_types ≫= elements_of 3 in
  (Forall (fun g => name_in (elem_name g) tri_names = true) element_types →
   direct_pass element_types [] = Ok triangles
   ∧ length triangles = num_elements element_types
   ∧ concat triangles = element_types ≫= elem_connectivity)
  ∧ (element_types ≠ [] →
     Forall (fun g => elem_name g = gmsh_triangle_name) element_types →
     recognized gmsh_triangle_name = false
     ∧ direct_pass element_types []
       = Raise (unknown_element_type gmsh_triangle_name)
     ∧ extract_surface element_types
       = Raise (unknown_element_type gmsh_triangle_name)).
Proof.
  intros Hthree triangles. split.
  - intros Hnames.
    assert (Hm : Forall tri_group element_types).
    { rewrite Forall_forall in Hthree, Hnames. apply Forall_forall.
      intros g Hg. split; [by apply Hnames|by apply Hthree]. }
    split_and!.
    + clear Hthree Hnames. induction Hm as [|g rest Hg _ IH]; [done|].
      rewrite direct_pass_cons, (tri_group_faces g Hg). simpl.
      by rewrite IH.
    + apply elements_of_total.
    + by destruct (elements_of_all_rows 3 tri_group element_types)
        as [_ ?]; [by intros g [_ ?]|done|].
  - intros Hne Hnames. split; [done|].
    by apply direct_pass_reported_name.
Qed.

Lemma X1_triangles_witness :
  direct_pass gmsh_triangles []
  = Raise (ValueError "Unknown element type: Triangle 3")
  ∧ direct_pass [ {| elem_name := "Triangle"; elem_tags := [1; 2]%N;
                     elem_connectivity := [1; 2; 3;  1; 3; 4]%N |} ] []
    = Ok [[1; 2; 3]; [1; 3; 4]]%N.
Proof.
  split.
  - destruct (X1_triangles_by_reported_name gmsh_triangles) as [_ Hreal];
      [by repeat constructor|].
    by destruct Hreal as (_ & Hdirect & _); [done|by repeat constructor|].
  - destruct (X1_triangles_by_reported_name
                [ {| elem_name := "Triangle"; elem_tags := [1; 2]%N;
                     elem_connectivity := [1; 2; 3;  1; 3; 4]%N |} ])
      as [Hmodel _]; [by repeat constructor|].
    by destruct Hmodel as (Hdirect & _); [by repeat constructor|].
Defined.

(** X2.  In a mesh of quadrilateral elements (four nodes per element): when
    every element type has one of the names the first loop classifies as
    quadrilateral (["4-node quadrangle"], ["Quadrangle"], ["quad"]), the
    direct pass splits every quadrilateral [a; b; c; d] into the two
    triangles [a; b; c] and [a; c; d], which share the diagonal a-c, so it
    emits twice as many faces as there are elements; when the element types
    have the name gmsh reports for quadrilaterals, ["Quadrilateral 4"],
    which is none of these, the direct pass raises ["Unknown element type:
    Quadrilateral 4"] and emits nothing. *)
Theorem X2_quadrilaterals_by_reported_name
    (element_types : list elem_group) :
  Forall (fun g => length (elem_connectivity g) = 4 * length (elem_tags g))
    element_types →
  let quads := element_types ≫= elements_of 4 in
  (Forall (fun g => name_in (elem_name g) quad_names = true) element_types →
   direct_pass element_types [] = Ok (concat (quad_faces <$> quads))
   ∧ length (concat (quad_faces <$> quads)) = 2 * num_elements element_types
   ∧ Forall (fun quad => ∃ a b c d,
               quad = [a; b; c; d]
               ∧ quad_faces quad = [[a; b; c]; [a; c; d]]) quads)
  ∧ (element_types ≠ [] →
     Forall (fun g => elem_name g = gmsh_quadrangle_name) element_types →
     recognized gmsh_quadrangle_name = false
     ∧ direct_pass element_types []
       = Raise (unknown_element_type gmsh_quadrangle_name)
     ∧ extract_surface element_types
       = Raise (unknown_element_type gmsh_quadrangle_name)).
Proof.
  intros Hfour quads. split.
  - intros Hnames.
    assert (Hm : Forall quad_group element_types).
    { rewrite Forall_forall in Hfour, Hnames. apply Forall_forall.
      intros g Hg. split; [by apply Hnames|by apply Hfour]. }
    split_and!.
    + apply direct_pass_uniform.
      eapply Forall_impl; [exact Hm|]. apply quad_group_faces.
    + rewrite <- (elements_of_total 4). by apply length_concat_const.
    + destruct (elements_of_all_rows 4 quad_group element_types)
        as [Hrows _]; [by intros g [_ ?]|done|].
      eapply Forall_impl; [exact Hrows|]. intros quad Hquad. simpl in Hquad.
      destruct quad as [|a [|b [|c [|d [|]]]]]; try discriminate.
      by exists a, b, c, d.
  - intros Hne Hnames. split; [done|].
    by apply direct_pass_reported_name.
Qed.

Lemma X2_quadrilaterals_witness :
  direct_pass gmsh_quadrangles []
  = Raise (ValueError "Unknown element type: Quadrilateral 4")
  ∧ direct_pass [ {| elem_name := "quad"; elem_tags := [3]%N;
                     elem_connectivity := [2; 5; 3; 4]%N |} ] []
    = Ok [[2; 5; 3]; [2; 3; 4]]%N.
Proof.
  split.
  - destruct (X2_quadrilaterals_by_reported_name gmsh_quadrangles)
      as [_ Hreal]; [by repeat constructor|].
    by destruct Hreal as (_ & Hdirect & _); [done|by repeat constructor|].
  - destruct (X2_quadrilaterals_by_reported_name
                [ {| elem_name := "quad"; elem_tags := [3]%N;
                     elem_connectivity := [2; 5; 3; 4]%N |} ])
      as [Hmodel _]; [by repeat constructor|].
    by destruct Hmodel as (Hdirect & _); [by repeat constructor|].
Defined.

Lemma group_faces_count g :
  recognized (elem_name g) = true → well_formed_group g →
  ∃ faces, group_faces g = Ok faces
           ∧ length faces
             = faces_per_element (elem_name g) * length (elem_tags g).
Proof.
  unfold recognized, well_formed_group, nodes_per_element, group_faces,
    faces_per_element.
  intros Hrec Hwf.
  destruct (name_in (elem_name g) tet_names);
    [|destruct (name_in (elem_name g) hex_names);
      [|destruct (name_in (elem_name g) tri_names);
        [|destruct (name_in (elem_name g) quad_names); [|done]]]];
    rewrite (reshape_rows (length (elem_tags g))) by (done || lia);
    simpl; eexists; (split; [done|]);
    first [rewrite (length_concat_const tet_faces 4) by done
          |rewrite (length_concat_const hex_faces 12) by done
          |rewrite (length_concat_const tri_faces 1) by done
          |rewrite (length_concat_const quad_faces 2) by done];
    by rewrite take_rows_length.
Qed.

(** X3.  On any mesh whose element types are all classified and whose
    buffers are well formed, whatever the mix of types, the direct pass
    returns, and the number of its faces is the sum over the types of the
    faces per element (4, 12, 1 or 2) times the number of elements; every
    face has three nodes. *)
Theorem X3_mixed_mesh_face_count (element_types : list elem_group) :
  Forall (fun g => recognized (elem_name g) = true) element_types →
  Forall well_formed_group element_types →
  ∃ faces,
    direct_pass element_types [] = Ok faces
    ∧ length faces = expected_faces element_types
    ∧ Forall (fun f => length f = 3) faces.
Proof.
  intros Hrec Hwf.
  assert (∃ faces, direct_pass element_types [] = Ok faces
                   ∧ length faces = expected_faces element_types)
    as (faces & Hdirect & Hlen).
  { induction Hrec as [|g rest Hg _ IH]; [by exists []|].
    apply Forall_cons in Hwf as [Hwfg Hwf].
    destruct (group_faces_count g Hg Hwfg) as (fs & Hfs & Hlen).
    destruct (IH Hwf) as (fs' & Hfs' & Hlen').
    exists (fs ++ fs'). rewrite direct_pass_cons, Hfs. simpl.
    rewrite Hfs'. split; [done|].
    rewrite length_app, Hlen, Hlen'. unfold expected_faces.
    by rewrite fmap_cons. }
  exists faces. split_and!; [done..|].
  eapply Forall_impl; [by apply direct_pass_shape|].
  by intros f (g & _ & ? & _).
Qed.

Lemma X3_mixed_mesh_witness :
  ∃ faces, direct_pass (element_types shell_mesh) [] = Ok faces
           ∧ length faces = 4.
Proof.
  destruct (X3_mixed_mesh_face_count (element_types shell_mesh))
    as (faces & Hdirect & Hlen & _).
  - repeat constructor.
  - repeat constructor.
  - exists faces. split; [exact Hdirect|exact Hlen].
Defined.

(** ** The two loops together *)

(** X4.  The second loop never adds a face: the faces that reach the
    remapping are those of the first loop, and they are never none; when
    the first loop ends without a face the second leaves [all_faces] as it
    found it and the script raises ["Could not extract any surface
    elements"]; when the first loop raises, that exception is the
    result. *)
Theorem X4_fallback_never_adds_a_face (element_types : list elem_group) :
  (∀ faces, extract_surface element_types = Ok faces
            ↔ direct_pass element_types [] = Ok faces ∧ faces ≠ [])
  ∧ (direct_pass element_types [] = Ok [] →
     (∀ all_faces, fallback_pass element_types all_faces = Ok all_faces)
     ∧ extract_surface element_types = Raise no_surface_error)
  ∧ (∀ e, direct_pass element_types [] = Raise e →
          extract_surface element_types = Raise e).
Proof.
  split_and!.
  - intros faces. split; [apply extract_surface_Ok_inv|].
    intros [Hdirect Hne]. rewrite extract_surface_direct, Hdirect.
    by destruct faces.
  - intros Hdirect. split.
    + intros all_faces. by apply fallback_pass_unproductive.
    + by rewrite extract_surface_direct, Hdirect.
  - intros e Hdirect. by rewrite extract_surface_direct, Hdirect.
Qed.

Lemma X4_fallback_witness :
  fallback_pass [ {| elem_name := "Tetrahedron"; elem_tags := [];
                     elem_connectivity := [] |} ] [] = Ok []
  ∧ extract_surface [ {| elem_name := "Tetrahedron"; elem_tags := [];
                         elem_connectivity := [] |} ]
    = Raise no_surface_error.
Proof.
  destruct (X4_fallback_never_adds_a_face
              [ {| elem_name := "Tetrahedron"; elem_tags := [];
                   elem_connectivity := [] |} ]) as (_ & Hnone & _).
  destruct (Hnone eq_refl) as [Hfallback Hraise].
  split; [apply Hfallback|exact Hraise].
Defined.

(** ** Toggling faces: parity *)

Section Parity.
Context {A : Type} `{EqDecision A}.
Implicit Types l ks : list A.

Lemma toggle_key_NoDup l k : NoDup l → NoDup (toggle_key l k).
Proof.
  intros Hl. unfold toggle_key. case_bool_decide as Hk.
  - by apply NoDup_filter.
  - apply NoDup_app. split_and!; [done| |apply NoDup_singleton].
    intros x Hx ->%list_elem_of_singleton. done.
Qed.

Lemma toggle_key_elem l k x :
  x ∈ toggle_key l k ↔ (x ≠ k ∧ x ∈ l) ∨ (x = k ∧ k ∉ l).
Proof.
  unfold toggle_key. case_bool_decide as Hk.
  - rewrite list_elem_of_filter. naive_solver.
  - rewrite elem_of_app, list_elem_of_singleton.
    destruct (decide (x = k)) as [->|]; naive_solver.
Qed.

Lemma toggle_keys_NoDup l ks : NoDup l → NoDup (foldl toggle_key l ks).
Proof.
  revert l. induction ks as [|k ks IH]; intros l Hl; simpl; [done|].
  by apply IH, toggle_key_NoDup.
Qed.

(** A key is present after toggling exactly when its presence before and
    the parity of its occurrences differ. *)
Lemma toggle_keys_parity l ks x :
  bool_decide (x ∈ foldl toggle_key l ks)
  = xorb (bool_decide (x ∈ l)) (Nat.odd (occurrences x ks)).
Proof.
  revert l. induction ks as [|k ks IH]; intros l; simpl.
  - by rewrite xorb_false_r.
  - rewrite IH. unfold occurrences. rewrite filter_cons.
    destruct (decide (k = x)) as [->|Hne].
    + simpl length. rewrite Nat.odd_succ, <- Nat.negb_odd.
      assert (bool_decide (x ∈ toggle_key l x) = negb (bool_decide (x ∈ l)))
        as ->.
      { rewrite <- bool_decide_not. apply bool_decide_ext.
        rewrite toggle_key_elem. naive_solver. }
      by destruct (bool_decide (x ∈ l)), (Nat.odd _).
    + f_equal. apply bool_decide_ext. rewrite toggle_key_elem. naive_solver.
Qed.
End Parity.

Lemma toggle_tets_flat (all_faces : list (face * face))
    (connectivity : list (list N)) :
  foldl toggle_tet all_faces connectivity
  = foldl toggle_face all_faces (connectivity ≫= tet_face_keys).
Proof.
  revert all_faces.
  induction connectivity as [|tet rest IH]; intros all_faces; [done|].
  rewrite bind_cons, foldl_app. simpl. by rewrite IH.
Qed.

(** X5.  After the faces of any sequence of tetrahedra were toggled into an
    empty dict, the dict holds a face key exactly when the key was seen an
    odd number of times; no key is held twice, and every value is the
    sorted face itself. *)
Theorem X5_toggle_parity (connectivity : list (list N)) (k : face) :
  let all_faces := foldl toggle_tet [] connectivity in
  NoDup (dict_keys all_faces)
  ∧ dict_values all_faces = dict_keys all_faces
  ∧ (k ∈ dict_values all_faces
     ↔ Nat.odd (occurrences k (connectivity ≫= tet_face_keys)) = true).
Proof.
  intros all_faces. unfold all_faces. rewrite toggle_tets_flat.
  assert (Hvalues : dict_values (foldl toggle_face []
                                   (connectivity ≫= tet_face_keys))
                    = dict_keys (foldl toggle_face []
                                   (connectivity ≫= tet_face_keys))).
  { apply faces_dict_values, toggle_faces_faces_dict. constructor. }
  rewrite Hvalues, toggle_faces_keys. split_and!; [|done|].
  - apply toggle_keys_NoDup. constructor.
  - pose proof (toggle_keys_parity (dict_keys (@nil (face * face)))
                  (connectivity ≫= tet_face_keys) k) as Hpar.
    change (dict_keys (@nil (face * face))) with (@nil face) in *.
    rewrite (bool_decide_eq_false_2 (k ∈ [])) in Hpar
      by apply not_elem_of_nil.
    simpl in Hpar. rewrite <- Hpar. by rewrite bool_decide_eq_true.
Qed.

(** ** Face keys *)

(** X6.  [sorted] returns the nodes of a face in ascending order, keeps
    every node with its multiplicity, and is canonical: two faces get the
    same key exactly when they have the same nodes in some order; a key is
    its own key. *)
Theorem X6_sorted_canonical (l : list N) :
  StronglySorted N.le (sorted l)
  ∧ sorted l ≡ₚ l
  ∧ (∀ l', sorted l = sorted l' ↔ l ≡ₚ l')
  ∧ sorted (sorted l) = sorted l.
Proof.
  split_and!.
  - apply sorted_StronglySorted.
  - apply sorted_perm.
  - intros l'. apply sorted_eq_iff.
  - apply sorted_eq_iff, sorted_perm.
Qed.

(** ** Substring search *)

Lemma append_String (c : ascii) (s1 s2 : string) :
  String.append (String c s1) s2 = String c (String.append s1 s2).
Proof. reflexivity. Qed.

Lemma append_Empty (s : string) : String.append EmptyString s = s.
Proof. reflexivity. Qed.

Lemma prefix_spec (s1 s2 : string) :
  String.prefix s1 s2 = true ↔ ∃ post, s2 = String.append s1 post.
Proof.
  revert s2. induction s1 as [|a s1 IH]; intros s2.
  - destruct s2; simpl; split; eauto.
  - destruct s2 as [|b s2]; simpl.
    + split; [discriminate|]. intros [post Hpost].
      by rewrite append_String in Hpost.
    + destruct (ascii_dec a b) as [->|Hne].
      * rewrite IH. split; intros [post Hpost]; exists post;
          rewrite append_String in *; congruence.
      * split; [discriminate|]. intros [post Hpost].
        rewrite append_String in Hpost. congruence.
Qed.

(** X7.  [needle in hay] holds exactly when [hay] is some text, then
    [needle], then some text. *)
Theorem X7_str_contains_substring (needle hay : string) :
  str_contains needle hay = true
  ↔ ∃ pre post, hay = String.append pre (String.append needle post).
Proof.
  induction hay as [|c hay IH].
  - cbn [str_contains]. rewrite orb_false_r, prefix_spec. split.
    + intros [post Hpost]. by exists EmptyString, post.
    + intros (pre & post & Hhay).
      destruct pre as [|c pre]; [by exists post|].
      by rewrite append_String in Hhay.
  - cbn [str_contains]. rewrite orb_true_iff, IH, prefix_spec. split.
    + intros [[post Hpost]|(pre & post & Hhay)].
      * by exists EmptyString, post.
      * exists (String c pre), post. by rewrite append_String, Hhay.
    + intros (pre & post & Hhay). destruct pre as [|c' pre].
      * left. by exists post.
      * right. rewrite append_String in Hhay. injection Hhay as _ Hhay. eauto.
Qed.

(** ** The node map and its inverse *)

Lemma node_map_from_spec i0 node_tags node_map tag i :
  node_map_from i0 node_tags node_map !! tag = Some i
  ↔ ((tag ∉ node_tags) ∧ node_map !! tag = Some i)
    ∨ (∃ j, i = i0 + j ∧ node_tags !! j = Some tag
            ∧ ∀ j', j < j' → node_tags !! j' ≠ Some tag).
Proof.
  revert i0 node_map.
  induction node_tags as [|t rest IH]; intros i0 node_map; simpl.
  - split; [intros ?; left; split; [apply not_elem_of_nil|done]|].
    intros [[_ ?]|(j & _ & Hj & _)]; [done|]. by destruct j.
  - rewrite IH. split.
    + intros [[Hnot Hins]|(j & -> & Hj & Hlast)].
      * destruct (decide (t = tag)) as [->|Hne].
        -- rewrite lookup_insert_eq in Hins. injection Hins as <-.
           right. exists 0. split_and!; [lia|done|].
           intros [|j'] Hlt; [lia|]. simpl. intros Hin.
           apply Hnot. by eapply list_elem_of_lookup_2.
        -- rewrite lookup_insert_ne in Hins by done.
           left. split; [|done]. rewrite not_elem_of_cons. by split.
      * right. exists (S j). split_and!; [lia|done|].
        intros [|j'] Hlt; [lia|]. simpl. apply Hlast. lia.
    + intros [[[Hne Hnot]%not_elem_of_cons Hnm]|(j & -> & Hj & Hlast)].
      * left. split; [done|]. by rewrite lookup_insert_ne.
      * destruct j as [|j]; simpl in Hj.
        -- injection Hj as ->. left. split.
           ++ intros [j' Hj']%list_elem_of_lookup.
              by apply (Hlast (S j')); [lia|].
           ++ rewrite lookup_insert_eq. f_equal. lia.
        -- right. exists j. split_and!; [lia|done|].
           intros j' Hlt. apply (Hlast (S j')). lia.
Qed.

Lemma build_node_map_last (node_tags : list N) (tag : N) (i : nat) :
  build_node_map node_tags !! tag = Some i
  ↔ node_tags !! i = Some tag
    ∧ ∀ j, i < j → node_tags !! j ≠ Some tag.
Proof.
  unfold build_node_map. rewrite node_map_from_spec. split.
  - intros [[_ Hempty]|(j & -> & Hj & Hlast)].
    + by rewrite lookup_empty in Hempty.
    + done.
  - intros [Hi Hlast]. right. by exists i.
Qed.

(** X8.  The node map sends a tag to the last position at which
    [node_tags] holds it, and has no other entry: a tag that gmsh returned
    twice keeps its later index. *)
Theorem X8_node_map_last_position (node_tags : list N) (tag : N) (i : nat) :
  build_node_map node_tags !! tag = Some i
  ↔ node_tags !! i = Some tag
    ∧ ∀ j, i < j → node_tags !! j ≠ Some tag.
Proof. apply build_node_map_last. Qed.

(** X9.  When gmsh's node tags are distinct, the node map is the inverse
    of [node_tags]: a tag is mapped to its position, and the position of a
    mapped tag holds it; the map has exactly as many entries as there are
    nodes. *)
Theorem X9_node_map_inverse (node_tags : list N) :
  NoDup node_tags →
  (∀ tag i, build_node_map node_tags !! tag = Some i
            ↔ node_tags !! i = Some tag)
  ∧ size (build_node_map node_tags) = length node_tags.
Proof.
  intros Hnd. split.
  - intros tag i. rewrite build_node_map_last. split; [by intros [? _]|].
    intros Hi. split; [done|]. intros j Hlt Hj.
    pose proof (NoDup_lookup _ _ _ _ Hnd Hi Hj). lia.
  - rewrite <- (size_dom (D := gset N)).
    assert (dom (build_node_map node_tags) = list_to_set node_tags) as ->.
    { apply set_eq. intros tag.
      by rewrite elem_of_dom, build_node_map_is_Some, elem_of_list_to_set. }
    by apply size_list_to_set.
Qed.

Lemma X9_node_map_inverse_witness :
  build_node_map [10; 20; 40]%N !! 40%N = Some 2
  ∧ size (build_node_map [10; 20; 40]%N) = 3.
Proof.
  destruct (X9_node_map_inverse [10; 20; 40]%N) as [Hiff Hsize].
  - apply NoDup_3; discriminate.
  - split; [by apply Hiff|exact Hsize].
Defined.

(** ** The remapping loop as a filter *)

Lemma map_face_mapM (node_map : gmap N nat) (f : face) :
  match map_face node_map f with
  | Mapped t => mapM (fun node_tag => node_map !! node_tag) f = Some t
  | KeyError k => mapM (fun node_tag => node_map !! node_tag) f = None
                  ∧ k ∈ f ∧ node_map !! k = None
  end.
Proof.
  destruct (map_face node_map f) as [t|k] eqn:Hm.
  - by apply mapM_Some_2, map_face_Mapped.
  - destruct (map_face_KeyError _ _ _ Hm) as [Hk Hnone].
    split; [|done]. apply mapM_None_2, Exists_exists. eauto.
Qed.

(** X10.  The remapping loop keeps, in order, exactly the faces all of
    whose nodes are in the node map, each translated node by node; it prints
    one warning per dropped face, naming a node of that face that is not in
    the map: kept and dropped faces together are all the faces. *)
Theorem X10_remap_is_filter (node_map : gmap N nat) (faces : list face) :
  (remap_faces node_map faces).1
  = omap (mapM (fun node_tag => node_map !! node_tag)) faces
  ∧ length (remap_faces node_map faces).1
    + length (remap_faces node_map faces).2 = length faces
  ∧ Forall (fun k => node_map !! k = None ∧ ∃ f, f ∈ faces ∧ k ∈ f)
      (remap_faces node_map faces).2.
Proof.
  induction faces as [|f faces (IH1 & IH2 & IH3)]; [by repeat constructor|].
  simpl. pose proof (map_face_mapM node_map f) as Hf.
  destruct (remap_faces node_map faces) as [ts ws].
  destruct (map_face node_map f) as [t|k]; simpl in *.
  - rewrite Hf. simpl. split_and!; [by f_equal|lia|].
    eapply Forall_impl; [exact IH3|].
    intros k [? (f' & ? & ?)]. split; [done|]. exists f'. split; [by right|done].
  - destruct Hf as (-> & Hk & Hnone). split_and!; [done|lia|].
    constructor.
    + split; [done|]. exists f. split; [by left|done].
    + eapply Forall_impl; [exact IH3|].
      intros k' [? (f' & ? & ?)]. split; [done|].
      exists f'. split; [by right|done].
Qed.

(** X11.  A triangle decodes back to its face: reading [node_tags] at the
    indices of a remapped face gives the face again, so the remapping loses
    nothing; in particular a face with distinct nodes becomes a triangle
    with distinct indices. *)
Theorem X11_remap_round_trip (node_tags : list N) (f : face) (t : triangle) :
  map_face (build_node_map node_tags) f = Mapped t →
  mapM (fun i => node_tags !! i) t = Some f
  ∧ length t = length f
  ∧ (NoDup f → NoDup t).
Proof.
  intros Hmap%map_face_Mapped.
  assert (Hback : Forall2 (fun i node_tag => node_tags !! i = Some node_tag)
                    t f).
  { apply Forall2_flip. eapply Forall2_impl; [exact Hmap|].
    intros node_tag i Hi. by apply build_node_map_lookup in Hi as [? _]. }
  split_and!.
  - by apply mapM_Some_2.
  - symmetry. by eapply Forall2_length.
  - intros Hnd. apply NoDup_alt. intros p q i Hp Hq.
    destruct (Forall2_lookup_l _ _ _ _ _ Hback Hp) as (tag_p & Hfp & Htp).
    destruct (Forall2_lookup_l _ _ _ _ _ Hback Hq) as (tag_q & Hfq & Htq).
    rewrite Htp in Htq. injection Htq as <-.
    by eapply NoDup_lookup.
Qed.

Lemma X11_remap_round_trip_witness :
  mapM (fun i => [10; 20; 40]%N !! i) [2; 0; 1] = Some [40; 10; 20]%N
  ∧ NoDup [2; 0; 1].
Proof.
  destruct (X11_remap_round_trip [10; 20; 40]%N [40; 10; 20]%N [2; 0; 1]
              eq_refl) as (Hback & _ & Hnd).
  split; [exact Hback|]. apply Hnd. apply NoDup_3; discriminate.
Defined.

(** ** [reshape] as the inverse of [concat] *)

Lemma take_rows_of_concat {A} (k : nat) (rows : list (list A)) :
  Forall (fun row => length row = k) rows →
  take_rows (length rows) k (concat rows) = rows.
Proof.
  induction 1 as [|row rows Hrow _ IH]; [done|].
  cbn [concat length]. by rewrite take_rows_app, IH.
Qed.

Lemma length_concat_rows {A} (k : nat) (rows : list (list A)) :
  Forall (fun row => length row = k) rows →
  length (concat rows) = k * length rows.
Proof.
  induction 1 as [|row rows Hrow _ IH]; [simpl; lia|].
  cbn [concat length]. rewrite length_app, IH, Hrow. lia.
Qed.

(** X12.  For a positive width, [reshape] returns rows exactly when the
    rows all have that width and concatenate to the buffer, and it raises
    exactly when the length of the buffer is not a multiple of the width:
    the rows a buffer reshapes to are unique and no entry is lost or
    reordered. *)
Theorem X12_reshape_inverse_of_concat {A} (k : nat) (l : list A)
    (rows : list (list A)) :
  0 < k →
  (reshape k l = Ok rows
   ↔ Forall (fun row => length row = k) rows ∧ concat rows = l)
  ∧ (reshape k l = Raise ReshapeError ↔ length l `mod` k ≠ 0).
Proof.
  intros Hk. split.
  - split.
    + by intros (_ & ? & ?)%reshape_Ok_inv.
    + intros [Hrows <-].
      rewrite (reshape_rows (length rows)), take_rows_of_concat; [done..|].
      by apply length_concat_rows.
  - unfold reshape. case_decide; [|done]. split; [discriminate|done].
Qed.

Lemma X12_reshape_witness :
  reshape 3 [1; 2; 3; 4; 5; 6] = Ok [[1; 2; 3]; [4; 5; 6]]
  ∧ reshape 3 [1; 2; 3; 4] = Raise ReshapeError.
Proof.
  split.
  - apply (X12_reshape_inverse_of_concat 3 [1; 2; 3; 4; 5; 6]
             [[1; 2; 3]; [4; 5; 6]]); [lia|].
    split; [by repeat constructor|reflexivity].
  - apply (X12_reshape_inverse_of_concat 3 [1; 2; 3; 4] []); [lia|].
    vm_compute. lia.
Defined.

(** ** Exits of the call *)

Section Exits.
Context {coord : Type}.
Implicit Types (m : fe_mesh coord) (w : world coord) (ext : externals).

(** The world a returning call leaves. *)
Lemma convert_Returned_spec ext input_file output_file w w' :
  convert_to_stl_with_gmsh ext input_file output_file w = (Returned, w')
  ↔ ∃ m output_mesh warnings,
      files w !! input_file = Some (InpFile m)
      ∧ temp_write ext = IoDone ∧ gmsh_init_ok ext = true
      ∧ gmsh_open_ok ext = true ∧ stl_write ext = IoDone
      ∧ surface_mesh m = Ok (output_mesh, warnings)
      ∧ w' = {| files := delete temp_msh_file
                           (<[output_file := StlFile output_mesh]>
                              (<[temp_msh_file := MshFile m]> (files w)));
                gmsh_live := false |}.
Proof.
  split.
  - unfold convert_to_stl_with_gmsh, try_block, meshio_write.
    destruct (files w !! input_file) as [[m| | | |]|] eqn:Hin;
      try discriminate.
    destruct (temp_write ext) eqn:Htemp; try discriminate.
    destruct (gmsh_init_ok ext) eqn:Hinit; [|discriminate].
    destruct (gmsh_open_ok ext) eqn:Hopen; [|discriminate].
    simpl. rewrite lookup_insert_eq.
    destruct (surface_mesh m) as [[output_mesh warnings]|e] eqn:Hs;
      [|discriminate].
    destruct (stl_write ext) eqn:Hstl; try discriminate.
    intros [= <-]. exists m, output_mesh, warnings.
    split_and!; [done..|]. by rewrite finally_block_eq.
  - intros (m & output_mesh & warnings & Hin & Htemp & Hinit & Hopen & Hstl
            & Hs & ->).
    rewrite (convert_in_try ext input_file output_file w m) by done.
    rewrite Hs, Hstl. simpl. by rewrite finally_block_eq.
Qed.

(** The files after a call, by case of what the libraries did. *)
Lemma convert_frame ext input_file output_file w path :
  path ≠ temp_msh_file → path ≠ output_file →
  files (convert_to_stl_with_gmsh ext input_file output_file w).2 !! path
  = files w !! path.
Proof.
  intros Htemp Hout.
  unfold convert_to_stl_with_gmsh, try_block, meshio_write.
  destruct (files w !! input_file) as [[m| | | |]|]; try done.
  destruct (temp_write ext); simpl; [|done|by rewrite lookup_insert_ne].
  destruct (gmsh_init_ok ext); simpl; [|by rewrite lookup_insert_ne].
  destruct (gmsh_open_ok ext); simpl; rewrite ?lookup_insert_eq;
    [destruct (surface_mesh m) as [[output_mesh warnings]|e];
       [destruct (stl_write ext)|]|];
    rewrite finally_block_eq; simpl;
    rewrite lookup_delete_ne, ?lookup_insert_ne by done; done.
Qed.
End Exits.

(** X13.  When the coordinate buffer is not a multiple of three long,
    [reshape] raises before any element is looked at: the call ends with
    numpy's exception whatever the elements are, and the [finally] block
    leaves the directory as it was, less a stale temporary file. *)
Theorem X13_ragged_coordinates_fatal {coord} (ext : externals)
    (input_file output_file : string) (w : world coord) (m : fe_mesh coord) :
  files w !! input_file = Some (InpFile m) →
  temp_write ext = IoDone → gmsh_init_ok ext = true →
  gmsh_open_ok ext = true →
  length (node_coords m) `mod` 3 ≠ 0 →
  surface_mesh m = Raise ReshapeError
  ∧ convert_to_stl_with_gmsh ext input_file output_file w
    = (Raised ReshapeError,
       {| files := delete temp_msh_file (files w); gmsh_live := false |}).
Proof.
  intros Hin Htemp Hinit Hopen Hragged.
  assert (Hs : surface_mesh m = Raise ReshapeError).
  { rewrite surface_mesh_steps. unfold reshape. by rewrite decide_False. }
  split; [done|].
  rewrite (convert_in_try ext input_file output_file w m), Hs by done.
  rewrite finally_block_eq. simpl. by rewrite delete_insert_eq.
Qed.

Lemma X13_ragged_coordinates_witness :
  convert_to_stl_with_gmsh ext_ok "Job.inp" "Job_surface.stl"
    (job_world ragged_mesh)
  = (Raised ReshapeError, job_world ragged_mesh).
Proof.
  destruct (X13_ragged_coordinates_fatal ext_ok "Job.inp" "Job_surface.stl"
              (job_world ragged_mesh) ragged_mesh
              eq_refl eq_refl eq_refl eq_refl) as [_ Hconv].
  - vm_compute. lia.
  - rewrite Hconv. reflexivity.
Defined.

(** X14.  The call touches two files only: every file other than the
    temporary file and the output file is after the call what it was
    before, however the call ends. *)
Theorem X14_other_files_untouched {coord} (ext : externals)
    (input_file output_file : string) (w : world coord) (path : string) :
  path ≠ temp_msh_file → path ≠ output_file →
  files (convert_to_stl_with_gmsh ext input_file output_file w).2 !! path
  = files w !! path.
Proof. apply convert_frame. Qed.

Lemma X14_other_files_witness :
  files (convert_to_stl_with_gmsh ext_ok "Job.inp" "Job_surface.stl"
           (job_world two_tets_mesh)).2 !! "Job.inp"%string
  = Some (InpFile two_tets_mesh).
Proof.
  rewrite (X14_other_files_untouched ext_ok "Job.inp" "Job_surface.stl"
             (job_world two_tets_mesh) "Job.inp") by discriminate.
  reflexivity.
Defined.

(** X15.  What the call does to the gmsh session, once the temporary file
    is written: when [gmsh.initialize()] and the option call have returned,
    [gmsh.finalize()] runs on every exit and the call ends without a
    session; when one of them raises, [gmsh.finalize()] is not run, so a
    session that [gmsh.initialize()] had started by then is left open. *)
Theorem X15_gmsh_session_after_call {coord} (ext : externals)
    (input_file output_file : string) (w : world coord) (m : fe_mesh coord) :
  files w !! input_file = Some (InpFile m) →
  temp_write ext = IoDone →
  gmsh_live (convert_to_stl_with_gmsh ext input_file output_file w).2
  = if gmsh_init_ok ext then false
    else gmsh_live w || gmsh_session_started ext.
Proof.
  intros Hin Htemp.
  unfold convert_to_stl_with_gmsh, try_block, meshio_write.
  rewrite Hin, Htemp. simpl.
  destruct (gmsh_init_ok ext); simpl; [|done].
  destruct (gmsh_open_ok ext); simpl; rewrite ?lookup_insert_eq;
    [destruct (surface_mesh m) as [[output_mesh warnings]|e];
       [destruct (stl_write ext)|]|];
    by rewrite finally_block_eq.
Qed.

Lemma X15_gmsh_session_witness :
  gmsh_live (convert_to_stl_with_gmsh ext_init_fails "Job.inp"
               "Job_surface.stl" (job_world unit_cube_mesh)).2 = true
  ∧ gmsh_live (convert_to_stl_with_gmsh ext_stl_fails "Job.inp"
                 "Job_surface.stl" (job_world unit_cube_mesh)).2 = false.
Proof.
  split.
  - exact (X15_gmsh_session_after_call ext_init_fails "Job.inp"
             "Job_surface.stl" (job_world unit_cube_mesh) unit_cube_mesh
             eq_refl eq_refl).
  - exact (X15_gmsh_session_after_call ext_stl_fails "Job.inp"
             "Job_surface.stl" (job_world unit_cube_mesh) unit_cube_mesh
             eq_refl eq_refl).
Defined.




(** ** File names that coincide, and running twice *)

(** X19.  When the output file is given the name of the temporary file, a
    call that returns leaves no output at all: the STL file is written and
    then removed by the [finally] block. *)
Theorem X19_output_named_as_temp_is_lost {coord} (ext : externals)
    (input_file : string) (w w' : world coord) :
  convert_to_stl_with_gmsh ext input_file temp_msh_file w = (Returned, w') →
  files w' !! temp_msh_file = None
  ∧ ∀ path mesh, files w' !! path = Some (StlFile mesh) →
                 files w !! path = Some (StlFile mesh).
Proof.
  intros (m & output_mesh & warnings & _ & _ & _ & _ & _ & _ & ->)
    %convert_Returned_spec.
  simpl. split; [apply lookup_delete_eq|].
  intros path mesh.
  destruct (decide (path = temp_msh_file)) as [->|Hne].
  - by rewrite lookup_delete_eq.
  - by rewrite lookup_delete_ne, !lookup_insert_ne.
Qed.

Lemma X19_output_named_as_temp_witness :
  files (convert_to_stl_with_gmsh ext_ok "Job.inp" "temp_conversion.msh"
           (job_world single_tet_mesh)).2 !! "temp_conversion.msh"%string
  = None.
Proof.
  exact (proj1 (X19_output_named_as_temp_is_lost ext_ok "Job.inp"
                  (job_world single_tet_mesh)
                  (convert_to_stl_with_gmsh ext_ok "Job.inp"
                     "temp_conversion.msh" (job_world single_tet_mesh)).2
                  eq_refl)).
Defined.

(** X20.  When the input file has the name of the temporary file, the call
    destroys its input: once the temporary file is written over it and
    [gmsh.initialize()] has returned, the [finally] block removes it,
    whether the call returns or raises. *)
Theorem X20_input_named_as_temp_is_destroyed {coord} (ext : externals)
    (output_file : string) (w : world coord) (m : fe_mesh coord) :
  files w !! temp_msh_file = Some (InpFile m) →
  temp_write ext = IoDone → gmsh_init_ok ext = true →
  files (convert_to_stl_with_gmsh ext temp_msh_file output_file w).2
  !! temp_msh_file = None.
Proof. apply convert_cleans_up_in_try. Qed.

Lemma X20_input_named_as_temp_witness :
  files (convert_to_stl_with_gmsh ext_ok "temp_conversion.msh"
           "Job_surface.stl"
           {| files := {[ "temp_conversion.msh"%string
                          := InpFile single_tet_mesh ]};
              gmsh_live := false |}).2
  !! "temp_conversion.msh"%string = None.
Proof.
  exact (X20_input_named_as_temp_is_destroyed ext_ok "Job_surface.stl"
           {| files := {[ "temp_conversion.msh"%string
                          := InpFile single_tet_mesh ]};
              gmsh_live := false |} single_tet_mesh
           eq_refl eq_refl eq_refl).
Defined.

(** X21.  Running the conversion again changes nothing: after a call that
    returned, the same call (with an input file that is neither the
    temporary nor the output file) returns again and leaves the world as
    the first call left it. *)
Theorem X21_second_run_changes_nothing {coord} (ext : externals)
    (input_file output_file : string) (w w' : world coord) :
  input_file ≠ temp_msh_file → input_file ≠ output_file →
  convert_to_stl_with_gmsh ext input_file output_file w = (Returned, w') →
  convert_to_stl_with_gmsh ext input_file output_file w' = (Returned, w').
Proof.
  intros Htemp Hout
    (m & output_mesh & warnings & Hin & Hw & Hinit & Hopen & Hstl & Hs & ->)
    %convert_Returned_spec.
  apply convert_Returned_spec. exists m, output_mesh, warnings.
  split_and!; try done.
  - simpl. by rewrite lookup_delete_ne, !lookup_insert_ne.
  - f_equal. simpl. apply map_eq. intros path.
    destruct (decide (path = temp_msh_file)) as [->|Hne1].
    { by rewrite !lookup_delete_eq. }
    rewrite !lookup_delete_ne by done.
    destruct (decide (path = output_file)) as [->|Hne2].
    { by rewrite !lookup_insert_eq. }
    by rewrite !lookup_insert_ne, lookup_delete_ne, !lookup_insert_ne.
Qed.

Lemma X21_second_run_witness :
  let w' := (convert_to_stl_with_gmsh ext_ok "Job.inp" "Job_surface.stl"
               (job_world two_tets_mesh)).2 in
  convert_to_stl_with_gmsh ext_ok "Job.inp" "Job_surface.stl" w'
  = (Returned, w').
Proof.
  intros w'.
  apply (X21_second_run_changes_nothing ext_ok "Job.inp" "Job_surface.stl"
           (job_world two_tets_mesh) w'); [discriminate|discriminate|].
  reflexivity.
Defined.

(** ** The entry point *)

(** X22.  When the script's entry point returns, [Job.inp] held a mesh and
    still holds it, [Job_surface.stl] holds the mesh the pipeline derives
    from it, no temporary file is left, the gmsh session is closed and
    every other file is as it was. *)
Theorem X22_main_returns {coord} (ext : externals) (w w' : world coord) :
  main ext w = (Returned, w') →
  ∃ m output_mesh warnings,
    files w !! "Job.inp"%string = Some (InpFile m)
    ∧ surface_mesh m = Ok (output_mesh, warnings)
    ∧ files w' !! "Job.inp"%string = Some (InpFile m)
    ∧ files w' !! "Job_surface.stl"%string = Some (StlFile output_mesh)
    ∧ files w' !! temp_msh_file = None
    ∧ gmsh_live w' = false
    ∧ ∀ path, path ≠ "Job_surface.stl"%string → path ≠ temp_msh_file →
              files w' !! path = files w !! path.
Proof.
  unfold main.
  intros (m & output_mesh & warnings & Hin & _ & _ & _ & _ & Hs & ->)
    %convert_Returned_spec.
  exists m, output_mesh, warnings. simpl. split_and!; try done.
  - by rewrite lookup_delete_ne, !lookup_insert_ne.
  - rewrite lookup_delete_ne by done. apply lookup_insert_eq.
  - apply lookup_delete_eq.
  - intros path Hout Htemp.
    by rewrite lookup_delete_ne, !lookup_insert_ne.
Qed.

Lemma X22_main_witness :
  ∃ output_mesh,
    files (main ext_ok (job_world single_tet_mesh)).2
    !! "Job_surface.stl"%string = Some (StlFile output_mesh)
    ∧ length (points output_mesh) = 4 ∧ length (cells output_mesh) = 4.
Proof.
  destruct (X22_main_returns ext_ok (job_world single_tet_mesh)
              (main ext_ok (job_world single_tet_mesh)).2 eq_refl)
    as (m & output_mesh & warnings & Hin & Hs & _ & Hout & _).
  apply (inj Some) in Hin. injection Hin as <-.
  exists output_mesh. split; [exact Hout|].
  vm_compute in Hs. injection Hs as <- _. split; reflexivity.
Defined.
